(** * Blocking synchronisation primitives of kern/thread/synch.c

    Semaphores, locks and condition variables, embedded shallowly:

    - the structures of synch.h as records;
    - the runtime the file is written against (spinlocks, wait channels,
      the allocator) as small executable definitions;
    - the create and destroy functions in a state-and-panic monad over a
      kernel heap with a fallible allocator;
    - the blocking operations as small-step machines in which every C
      statement of every thread is one atomic transition, so that every
      interleaving of statements is a schedule of the machine. *)

From stdpp Require Import gmap strings list fin_maps functions.
From Stdlib Require Import ZArith Lia.

Local Open Scope Z_scope.

(** ** Threads, pointers and the runtime primitives *)

(** A thread is identified by the address of its [struct thread]; we only
    need identities to be comparable.  [curthread] is never NULL. *)
Abbreviation tid := nat.

(** Kernel addresses; a C pointer is an optional address, NULL is [None]. *)
Abbreviation addr := positive.
Abbreviation ptr := (option addr).
Definition NULL : ptr := None.

Definition is_null (p : ptr) : bool :=
  match p with None => true | Some _ => false end.

(** Modelled from the spec: the spinlock of spinlock.h, which is not part of
    synch.c.  A spinlock is free or held by one thread. *)
Abbreviation spinlock := (option tid).

(** Modelled from the spec: [spinlock_init] leaves the lock free. *)
Definition spinlock_init : spinlock := None.

(** Modelled from the spec: [spinlock_acquire] busy-waits until the lock is
    exclusive; the model renders the wait as a step that is not enabled
    ([None]) while somebody holds the lock. *)
Definition spinlock_acquire (curthread : tid) (l : spinlock) : option spinlock :=
  match l with
  | None => Some (Some curthread)
  | Some _ => None
  end.

(** Modelled from the spec: [spinlock_release] relinquishes the lock. *)
Definition spinlock_release (l : spinlock) : spinlock := None.

(** Modelled from the spec: the wait channel of wchan.h, which is not part
    of synch.c.  A channel is the collection of threads asleep on it. *)
Abbreviation wchan := (list tid).

(** Modelled from the spec: [wchan_sleep] releases the guard and puts the
    caller on the channel in one atomic action; the caller stays blocked
    while it is on the channel ([asleep]) and takes the guard again before it
    continues (a separate step of the machines below). *)
Definition wchan_sleep (curthread : tid) (w : wchan) (guard : spinlock)
  : wchan * spinlock :=
  (w ++ [curthread], spinlock_release guard).

Definition asleep (curthread : tid) (w : wchan) : bool :=
  bool_decide (curthread ∈ w).

(** Modelled from the spec: [wchan_wakeone] wakes a single sleeper if there
    is one; which one is left to the scheduler (the [choice]). *)
Definition wchan_wakeone (choice : nat) (w : wchan) : wchan :=
  match w with
  | [] => []
  | _ => delete (choice mod length w)%nat w
  end.

(** Modelled from the spec: [wchan_wakeall] wakes every sleeper. *)
Definition wchan_wakeall (w : wchan) : wchan := [].

(** ** The structures of synch.h *)

(** synch.h is not at hand; the fields are the ones synch.c reads and
    writes, a spinlock being stored in the structure and a wait channel
    pointed to. *)

(** [unsigned] arithmetic: 32 bits, wrapping. *)
Definition UINT_MOD : Z := 2 ^ 32.
Definition wrap (z : Z) : Z := z mod UINT_MOD.

Record semaphore := Semaphore {
  sem_name : ptr;
  sem_wchan : ptr;
  sem_lock : spinlock;
  sem_count : Z
}.

Record lock := Lock {
  lk_name : ptr;
  lock_wchan : ptr;
  lock_lock : spinlock;
  free : bool;
  curr_user : option tid
}.

Record cv := Cv {
  cv_name : ptr;
  control_wchan : ptr;
  control_spinlock : spinlock
}.

(** Field assignments. *)
Definition set_sem_lock (g : spinlock) (s : semaphore) : semaphore :=
  Semaphore (sem_name s) (sem_wchan s) g (sem_count s).
Definition set_sem_count (c : Z) (s : semaphore) : semaphore :=
  Semaphore (sem_name s) (sem_wchan s) (sem_lock s) c.

Definition set_lock_lock (g : spinlock) (l : lock) : lock :=
  Lock (lk_name l) (lock_wchan l) g (free l) (curr_user l).
Definition set_free (b : bool) (l : lock) : lock :=
  Lock (lk_name l) (lock_wchan l) (lock_lock l) b (curr_user l).
Definition set_curr_user (u : option tid) (l : lock) : lock :=
  Lock (lk_name l) (lock_wchan l) (lock_lock l) (free l) u.

Definition set_control_spinlock (g : spinlock) (c : cv) : cv :=
  Cv (cv_name c) (control_wchan c) g.

(** [lock_do_i_hold]: reads [free], then [curr_user].  Its own
    [KASSERT(lock != NULL)] is discharged by its callers, which all assert
    the same just before. *)
Definition lock_do_i_hold (curthread : tid) (l : lock) : bool :=
  if free l then false
  else if bool_decide (curr_user l = Some curthread) then true
  else false.

(** ** The kernel heap and the allocator *)

Module Kernel.

(** What an allocated block holds. *)
Inductive block :=
| BRaw
| BStr (s : string)
| BWchan (name : ptr) (sleepers : wchan)
| BSem (s : semaphore)
| BLock (l : lock)
| BCv (c : cv).

(** [k_plan] decides the coming allocations, one entry each ([false]: the
    allocation fails); an exhausted plan means memory is available. *)
Record kstate := KState {
  k_heap : gmap addr block;
  k_plan : list bool
}.

(** A computation ends normally, stops in a fatal assertion (the state is the
    one at the moment of the panic), or uses a pointer that does not refer to
    a live object of the right type. *)
Inductive outcome (A : Type) :=
| Done (a : A) (k : kstate)
| Panic (k : kstate)
| Fault.
Arguments Done {A} a k.
Arguments Panic {A} k.
Arguments Fault {A}.

Definition K (A : Type) : Type := kstate → outcome A.

Definition ret {A} (a : A) : K A := fun k => Done a k.

Definition bind {A B} (m : K A) (f : A → K B) : K B :=
  fun k =>
    match m k with
    | Done a k' => f a k'
    | Panic k' => Panic k'
    | Fault => Fault
    end.

Notation "x <~ m ;; f" := (bind m (fun x => f))
  (at level 100, m at next level, right associativity).
Notation "m ;;; f" := (bind m (fun _ => f))
  (at level 100, right associativity).

Definition KASSERT (b : bool) : K unit :=
  fun k => if b then Done tt k else Panic k.

(** Modelled from the spec: the fallible allocator of lib.h, which is not
    part of synch.c.  An allocation fails, returning NULL, or returns an
    address that is not in use. *)
Definition alloc (b : block) : K ptr :=
  fun k =>
    match k_plan k with
    | false :: pl => Done NULL (KState (k_heap k) pl)
    | pl =>
        let a := fresh (dom (k_heap k)) in
        Done (Some a) (KState (<[a := b]> (k_heap k)) (tail pl))
    end.

(** Modelled from the spec: [kmalloc], fallible. *)
Definition kmalloc : K ptr := alloc BRaw.

(** Modelled from the spec: [kstrdup], a fallible copy of the string. *)
Definition kstrdup (s : string) : K ptr := alloc (BStr s).

(** Modelled from the spec: [wchan_create], a fallible allocation of a
    channel with no sleeper. *)
Definition wchan_create (name : ptr) : K ptr := alloc (BWchan name []).

(** Modelled from the spec: [kfree] gives a block back; freeing NULL does
    nothing. *)
Definition kfree (p : ptr) : K unit :=
  fun k =>
    match p with
    | None => Done tt k
    | Some a =>
        match k_heap k !! a with
        | Some _ => Done tt (KState (delete a (k_heap k)) (k_plan k))
        | None => Fault
        end
    end.

(** Modelled from the spec: [wchan_destroy] is fatal if any thread is
    asleep on the channel, and frees the channel otherwise. *)
Definition wchan_destroy (p : ptr) : K unit :=
  fun k =>
    match p with
    | None => Fault
    | Some a =>
        match k_heap k !! a with
        | Some (BWchan _ []) => Done tt (KState (delete a (k_heap k)) (k_plan k))
        | Some (BWchan _ (_ :: _)) => Panic k
        | _ => Fault
        end
    end.

(** Modelled from the spec: [spinlock_cleanup], for which the spec states
    no effect. *)
Definition spinlock_cleanup (l : spinlock) : K unit := ret tt.

(** Writing the initialised structure into its block. *)
Definition store (p : ptr) (b : block) : K unit :=
  fun k =>
    match p with
    | None => Fault
    | Some a =>
        match k_heap k !! a with
        | Some _ => Done tt (KState (<[a := b]> (k_heap k)) (k_plan k))
        | None => Fault
        end
    end.

Definition load (p : ptr) : K block :=
  fun k =>
    match p with
    | None => Fault
    | Some a =>
        match k_heap k !! a with
        | Some b => Done b k
        | None => Fault
        end
    end.

Definition load_sem (p : ptr) : K semaphore :=
  b <~ load p ;; match b with BSem s => ret s | _ => fun _ => Fault end.
Definition load_lock (p : ptr) : K lock :=
  b <~ load p ;; match b with BLock l => ret l | _ => fun _ => Fault end.
Definition load_cv (p : ptr) : K cv :=
  b <~ load p ;; match b with BCv c => ret c | _ => fun _ => Fault end.

(** *** Semaphore *)

(** [initial_count] is the value of the [unsigned] parameter, so it ranges
    over [0 ≤ initial_count < UINT_MOD]; the field takes it as it is. *)
Definition sem_create (name : string) (initial_count : Z) : K ptr :=
  sem <~ kmalloc ;;
  if is_null sem then ret NULL else
  nm <~ kstrdup name ;;
  if is_null nm then
    kfree sem ;;;
    ret NULL
  else
  wc <~ wchan_create nm ;;
  if is_null wc then
    kfree nm ;;;
    kfree sem ;;;
    ret NULL
  else
  store sem (BSem (Semaphore nm wc spinlock_init initial_count)) ;;;
  ret sem.

Definition sem_destroy (sem : ptr) : K unit :=
  KASSERT (negb (is_null sem)) ;;;
  s <~ load_sem sem ;;
  spinlock_cleanup (sem_lock s) ;;;
  wchan_destroy (sem_wchan s) ;;;
  kfree (sem_name s) ;;;
  kfree sem.

(** *** Lock *)

(** On the failure of [wchan_create] the code frees [lock->lock_wchan], which
    is NULL there, and then the lock. *)
Definition lock_create (name : string) : K ptr :=
  lk <~ kmalloc ;;
  if is_null lk then ret NULL else
  nm <~ kstrdup name ;;
  if is_null nm then
    kfree lk ;;;
    ret NULL
  else
  wc <~ wchan_create nm ;;
  if is_null wc then
    kfree wc ;;;
    kfree lk ;;;
    ret NULL
  else
  store lk (BLock (Lock nm wc spinlock_init true None)) ;;;
  ret lk.

Definition lock_destroy (lk : ptr) : K unit :=
  KASSERT (negb (is_null lk)) ;;;
  l <~ load_lock lk ;;
  KASSERT (bool_decide (free l = true)) ;;;
  KASSERT (bool_decide (curr_user l = None)) ;;;
  spinlock_cleanup (lock_lock l) ;;;
  wchan_destroy (lock_wchan l) ;;;
  kfree (lk_name l) ;;;
  kfree lk.

(** *** Condition variable *)

Definition cv_create (name : string) : K ptr :=
  c <~ kmalloc ;;
  if is_null c then ret NULL else
  nm <~ kstrdup name ;;
  if is_null nm then
    kfree c ;;;
    ret NULL
  else
  wc <~ wchan_create nm ;;
  if is_null wc then
    kfree nm ;;;
    kfree c ;;;
    ret NULL
  else
  store c (BCv (Cv nm wc spinlock_init)) ;;;
  ret c.

Definition cv_destroy (c : ptr) : K unit :=
  KASSERT (negb (is_null c)) ;;;
  x <~ load_cv c ;;
  wchan_destroy (control_wchan x) ;;;
  spinlock_cleanup (control_spinlock x) ;;;
  kfree (cv_name x) ;;;
  kfree c.

End Kernel.

(** ** The semaphore machine: every interleaving of P and V on one semaphore *)

Module Sem.

(** The calls threads make.  The machine holds one semaphore; a non-NULL
    argument designates it. *)
Inductive op :=
| OpP (sem : ptr)
| OpV (sem : ptr).

(** Where a thread stands: outside any call, or before one statement of [P]
    or [V]. *)
Inductive pc :=
| Idle
| P_assert_sem (sem : ptr)  (* KASSERT(sem != NULL) *)
| P_assert_intr             (* KASSERT(curthread->t_in_interrupt == false) *)
| P_acquire                 (* spinlock_acquire(&sem->sem_lock) *)
| P_test                    (* while (sem->sem_count == 0) wchan_sleep(...) *)
| P_sleeping                (* inside wchan_sleep *)
| P_assert_count            (* KASSERT(sem->sem_count > 0) *)
| P_decr                    (* sem->sem_count-- *)
| P_release                 (* spinlock_release(&sem->sem_lock) *)
| V_assert_sem (sem : ptr)  (* KASSERT(sem != NULL) *)
| V_acquire                 (* spinlock_acquire(&sem->sem_lock) *)
| V_incr                    (* sem->sem_count++ *)
| V_assert_count            (* KASSERT(sem->sem_count > 0) *)
| V_wake                    (* wchan_wakeone(sem->sem_wchan, &sem->sem_lock) *)
| V_release.                (* spinlock_release(&sem->sem_lock) *)

Record machine := Machine {
  m_sem : semaphore;
  m_wchan : wchan;                 (* the channel [sem_wchan] points to *)
  m_pc : tid → pc;
  m_in_interrupt : tid → bool;     (* curthread->t_in_interrupt *)
  m_panic : bool
}.

Definition with_sem (s : semaphore) (m : machine) : machine :=
  Machine s (m_wchan m) (m_pc m) (m_in_interrupt m) (m_panic m).
Definition with_wchan (w : wchan) (m : machine) : machine :=
  Machine (m_sem m) w (m_pc m) (m_in_interrupt m) (m_panic m).
Definition goto (t : tid) (p : pc) (m : machine) : machine :=
  Machine (m_sem m) (m_wchan m) (<[t := p]> (m_pc m)) (m_in_interrupt m) (m_panic m).
Definition with_interrupt (t : tid) (b : bool) (m : machine) : machine :=
  Machine (m_sem m) (m_wchan m) (m_pc m) (<[t := b]> (m_in_interrupt m)) (m_panic m).
Definition panic (m : machine) : machine :=
  Machine (m_sem m) (m_wchan m) (m_pc m) (m_in_interrupt m) true.

(** Taking the guard, on entry or on the way out of [wchan_sleep]. *)
Definition take_guard (t : tid) (next : pc) (m : machine) : option machine :=
  match spinlock_acquire t (sem_lock (m_sem m)) with
  | Some g => Some (goto t next (with_sem (set_sem_lock g (m_sem m)) m))
  | None => None
  end.

Definition drop_guard (t : tid) (next : pc) (m : machine) : machine :=
  goto t next (with_sem (set_sem_lock (spinlock_release (sem_lock (m_sem m))) (m_sem m)) m).

(** One statement of thread [t]. *)
Definition exec (t : tid) (choice : nat) (m : machine) : option machine :=
  let s := m_sem m in
  match m_pc m t with
  | Idle => None
  | P_assert_sem sem =>
      if is_null sem then Some (panic m) else Some (goto t P_assert_intr m)
  | P_assert_intr =>
      if m_in_interrupt m t then Some (panic m) else Some (goto t P_acquire m)
  | P_acquire => take_guard t P_test m
  | P_test =>
      if sem_count s =? 0 then
        let '(w, g) := wchan_sleep t (m_wchan m) (sem_lock s) in
        Some (goto t P_sleeping (with_wchan w (with_sem (set_sem_lock g s) m)))
      else Some (goto t P_assert_count m)
  | P_sleeping =>
      if asleep t (m_wchan m) then None else take_guard t P_test m
  | P_assert_count =>
      if 0 <? sem_count s then Some (goto t P_decr m) else Some (panic m)
  | P_decr =>
      Some (goto t P_release (with_sem (set_sem_count (wrap (sem_count s - 1)) s) m))
  | P_release => Some (drop_guard t Idle m)
  | V_assert_sem sem =>
      if is_null sem then Some (panic m) else Some (goto t V_acquire m)
  | V_acquire => take_guard t V_incr m
  | V_incr =>
      Some (goto t V_assert_count (with_sem (set_sem_count (wrap (sem_count s + 1)) s) m))
  | V_assert_count =>
      if 0 <? sem_count s then Some (goto t V_wake m) else Some (panic m)
  | V_wake =>
      Some (goto t V_release (with_wchan (wchan_wakeone choice (m_wchan m)) m))
  | V_release => Some (drop_guard t Idle m)
  end.

Inductive event :=
| Call (t : tid) (o : op)            (* an idle thread enters P or V *)
| Run (t : tid) (choice : nat)       (* a thread executes its next statement *)
| Interrupt (t : tid) (b : bool).    (* an idle thread enters or leaves a handler *)

Definition entry (o : op) : pc :=
  match o with
  | OpP sem => P_assert_sem sem
  | OpV sem => V_assert_sem sem
  end.

Definition is_idle (p : pc) : bool :=
  match p with Idle => true | _ => false end.

(** A panic halts the kernel. *)
Definition step (m : machine) (e : event) : option machine :=
  if m_panic m then None else
  match e with
  | Call t o => if is_idle (m_pc m t) then Some (goto t (entry o) m) else None
  | Run t choice => exec t choice m
  | Interrupt t b =>
      if is_idle (m_pc m t) then Some (with_interrupt t b m) else None
  end.

Fixpoint run (m : machine) (es : list event) : option machine :=
  match es with
  | [] => Some m
  | e :: es' =>
      match step m e with
      | Some m' => run m' es'
      | None => None
      end
  end.

(** The machine right after [sem_create(name, initial_count)] succeeded. *)
Definition boot (nm wc : ptr) (initial_count : Z) : machine :=
  Machine (Semaphore nm wc spinlock_init initial_count) []
          (fun _ => Idle) (fun _ => false) false.

(** Counting the calls that have returned. *)
Definition returns_P (m : machine) (e : event) : bool :=
  match e with
  | Run t _ => match m_pc m t with P_release => true | _ => false end
  | _ => false
  end.

Definition returns_V (m : machine) (e : event) : bool :=
  match e with
  | Run t _ => match m_pc m t with V_release => true | _ => false end
  | _ => false
  end.

Record tally := Tally {
  t_machine : machine;
  done_P : Z;
  done_V : Z
}.

Definition tally_step (o : tally) (e : event) : option tally :=
  match step (t_machine o) e with
  | Some m' =>
      Some (Tally m'
              (done_P o + (if returns_P (t_machine o) e then 1 else 0))
              (done_V o + (if returns_V (t_machine o) e then 1 else 0)))
  | None => None
  end.

Fixpoint tally_run (o : tally) (es : list event) : option tally :=
  match es with
  | [] => Some o
  | e :: es' =>
      match tally_step o e with
      | Some o' => tally_run o' es'
      | None => None
      end
  end.

(** The thread an event belongs to. *)
Definition actor (e : event) : tid :=
  match e with
  | Call t _ | Run t _ | Interrupt t _ => t
  end.

Definition reachable (initial_count : Z) (m : machine) : Prop :=
  ∃ nm wc es, run (boot nm wc initial_count) es = Some m.

(** *** The invariant of the semaphore machine *)

(** The statements between taking and dropping the guard. *)
Definition crit (p : pc) : bool :=
  match p with
  | P_test | P_assert_count | P_decr | P_release
  | V_incr | V_assert_count | V_wake | V_release => true
  | _ => false
  end.

(** How the count [c] relates to the calls that returned ([np] of [P], [nv]
    of [V]) when the guard holder stands at [p]. *)
Definition balanced (ic c np nv : Z) (p : pc) : Prop :=
  match p with
  | P_decr => 0 < c ∧ c + np = ic + nv
  | P_release => c + np + 1 = ic + nv
  | V_assert_count =>
      (c = 0 ∧ UINT_MOD + np = ic + nv + 1) ∨ (0 < c ∧ c + np = ic + nv + 1)
  | V_wake | V_release => 0 < c ∧ c + np = ic + nv + 1
  | _ => c + np = ic + nv
  end.

Record inv (ic : Z) (o : tally) : Prop := Inv {
  inv_range : 0 ≤ sem_count (m_sem (t_machine o)) < UINT_MOD;
  inv_crit : ∀ t, crit (m_pc (t_machine o) t) = true
                  ↔ sem_lock (m_sem (t_machine o)) = Some t;
  inv_balance :
    match sem_lock (m_sem (t_machine o)) with
    | None => sem_count (m_sem (t_machine o)) + done_P o = ic + done_V o
    | Some h =>
        balanced ic (sem_count (m_sem (t_machine o))) (done_P o) (done_V o)
                 (m_pc (t_machine o) h)
    end
}.

End Sem.

(** ** The monitor machine: every interleaving of the lock and condition
    variable operations on one lock and one condition variable *)

Module Mon.

(** A non-NULL argument designates the machine's lock or its condition
    variable. *)
Inductive op :=
| OpAcquire (lock : ptr)
| OpRelease (lock : ptr)
| OpWait (cv lock : ptr)
| OpSignal (cv lock : ptr)
| OpBroadcast (cv lock : ptr).

(** [lock_release] and [lock_acquire] are called by threads and by
    [cv_wait]; the frame below says where they return to. *)
Inductive caller :=
| Top
| CvWait (lock : ptr).

Inductive pc :=
| Idle
(* lock_acquire *)
| A_assert_lock (lock : ptr) (c : caller)  (* KASSERT(lock != NULL) *)
| A_assert_intr (c : caller)   (* KASSERT(curthread->t_in_interrupt == false) *)
| A_acquire (c : caller)       (* spinlock_acquire(&lock->lock_lock) *)
| A_test (c : caller)          (* while (lock->free == false) wchan_sleep(...) *)
| A_sleeping (c : caller)      (* inside wchan_sleep *)
| A_set_user (c : caller)      (* lock->curr_user = curthread *)
| A_set_free (c : caller)      (* lock->free = false *)
| A_release (c : caller)       (* spinlock_release(&lock->lock_lock) *)
(* lock_release *)
| R_assert_lock (lock : ptr) (c : caller)  (* KASSERT(lock != NULL) *)
| R_assert_hold (c : caller)   (* KASSERT(lock_do_i_hold(lock)) *)
| R_acquire (c : caller)       (* spinlock_acquire(&lock->lock_lock) *)
| R_clear_user (c : caller)    (* lock->curr_user = NULL *)
| R_set_free (c : caller)      (* lock->free = true *)
| R_wake (c : caller)          (* wchan_wakeone(lock->lock_wchan, ...) *)
| R_release (c : caller)       (* spinlock_release(&lock->lock_lock) *)
(* cv_wait *)
| W_assert_cv (cv lock : ptr)  (* KASSERT(cv != NULL) *)
| W_assert_lock (lock : ptr)   (* KASSERT(lock != NULL) *)
| W_assert_hold (lock : ptr)   (* KASSERT(lock_do_i_hold(lock) == true) *)
| W_acquire (lock : ptr)       (* spinlock_acquire(&cv->control_spinlock) *)
| W_call_release (lock : ptr)  (* lock_release(lock) *)
| W_sleep (lock : ptr)         (* wchan_sleep(cv->control_wchan, ...) *)
| W_sleeping (lock : ptr)      (* inside wchan_sleep *)
| W_release (lock : ptr)       (* spinlock_release(&cv->control_spinlock) *)
| W_call_acquire (lock : ptr)  (* lock_acquire(lock) *)
(* cv_signal *)
| S_assert_cv (cv lock : ptr)
| S_assert_lock (lock : ptr)
| S_assert_hold
| S_acquire                    (* spinlock_acquire(&cv->control_spinlock) *)
| S_wake                       (* wchan_wakeone(cv->control_wchan, ...) *)
| S_release                    (* spinlock_release(&cv->control_spinlock) *)
(* cv_broadcast *)
| B_assert_cv (cv lock : ptr)
| B_assert_lock (lock : ptr)
| B_assert_hold
| B_acquire
| B_wake                       (* wchan_wakeall(cv->control_wchan, ...) *)
| B_release.

Record machine := Machine {
  m_lock : lock;
  m_lock_wchan : wchan;            (* the channel [lock_wchan] points to *)
  m_cv : cv;
  m_cv_wchan : wchan;              (* the channel [control_wchan] points to *)
  m_pc : tid → pc;
  m_in_interrupt : tid → bool;     (* curthread->t_in_interrupt *)
  m_panic : bool
}.

Definition with_lock (l : lock) (m : machine) : machine :=
  Machine l (m_lock_wchan m) (m_cv m) (m_cv_wchan m) (m_pc m)
          (m_in_interrupt m) (m_panic m).
Definition with_lock_wchan (w : wchan) (m : machine) : machine :=
  Machine (m_lock m) w (m_cv m) (m_cv_wchan m) (m_pc m)
          (m_in_interrupt m) (m_panic m).
Definition with_cv (c : cv) (m : machine) : machine :=
  Machine (m_lock m) (m_lock_wchan m) c (m_cv_wchan m) (m_pc m)
          (m_in_interrupt m) (m_panic m).
Definition with_cv_wchan (w : wchan) (m : machine) : machine :=
  Machine (m_lock m) (m_lock_wchan m) (m_cv m) w (m_pc m)
          (m_in_interrupt m) (m_panic m).
Definition goto (t : tid) (p : pc) (m : machine) : machine :=
  Machine (m_lock m) (m_lock_wchan m) (m_cv m) (m_cv_wchan m)
          (<[t := p]> (m_pc m)) (m_in_interrupt m) (m_panic m).
Definition with_interrupt (t : tid) (b : bool) (m : machine) : machine :=
  Machine (m_lock m) (m_lock_wchan m) (m_cv m) (m_cv_wchan m) (m_pc m)
          (<[t := b]> (m_in_interrupt m)) (m_panic m).
Definition panic (m : machine) : machine :=
  Machine (m_lock m) (m_lock_wchan m) (m_cv m) (m_cv_wchan m) (m_pc m)
          (m_in_interrupt m) true.

(** What follows the last statement of [lock_release] and of
    [lock_acquire]: in [cv_wait] the first is followed by the sleep, the
    second is the last statement. *)
Definition after_release (c : caller) : pc :=
  match c with
  | Top => Idle
  | CvWait lock => W_sleep lock
  end.

Definition after_acquire (c : caller) : pc :=
  match c with
  | Top => Idle
  | CvWait _ => Idle
  end.

Definition take_lock_guard (t : tid) (next : pc) (m : machine) : option machine :=
  match spinlock_acquire t (lock_lock (m_lock m)) with
  | Some g => Some (goto t next (with_lock (set_lock_lock g (m_lock m)) m))
  | None => None
  end.

Definition drop_lock_guard (t : tid) (next : pc) (m : machine) : machine :=
  goto t next
    (with_lock (set_lock_lock (spinlock_release (lock_lock (m_lock m))) (m_lock m)) m).

Definition take_cv_guard (t : tid) (next : pc) (m : machine) : option machine :=
  match spinlock_acquire t (control_spinlock (m_cv m)) with
  | Some g => Some (goto t next (with_cv (set_control_spinlock g (m_cv m)) m))
  | None => None
  end.

Definition drop_cv_guard (t : tid) (next : pc) (m : machine) : machine :=
  goto t next
    (with_cv (set_control_spinlock
                (spinlock_release (control_spinlock (m_cv m))) (m_cv m)) m).

Definition assert_then (b : bool) (t : tid) (next : pc) (m : machine) : option machine :=
  if b then Some (goto t next m) else Some (panic m).

(** One statement of thread [t]. *)
Definition exec (t : tid) (choice : nat) (m : machine) : option machine :=
  let l := m_lock m in
  match m_pc m t with
  | Idle => None
  (* lock_acquire *)
  | A_assert_lock lock c => assert_then (negb (is_null lock)) t (A_assert_intr c) m
  | A_assert_intr c => assert_then (negb (m_in_interrupt m t)) t (A_acquire c) m
  | A_acquire c => take_lock_guard t (A_test c) m
  | A_test c =>
      if bool_decide (free l = false) then
        let '(w, g) := wchan_sleep t (m_lock_wchan m) (lock_lock l) in
        Some (goto t (A_sleeping c) (with_lock_wchan w (with_lock (set_lock_lock g l) m)))
      else Some (goto t (A_set_user c) m)
  | A_sleeping c =>
      if asleep t (m_lock_wchan m) then None else take_lock_guard t (A_test c) m
  | A_set_user c =>
      Some (goto t (A_set_free c) (with_lock (set_curr_user (Some t) l) m))
  | A_set_free c =>
      Some (goto t (A_release c) (with_lock (set_free false l) m))
  | A_release c => Some (drop_lock_guard t (after_acquire c) m)
  (* lock_release *)
  | R_assert_lock lock c => assert_then (negb (is_null lock)) t (R_assert_hold c) m
  | R_assert_hold c => assert_then (lock_do_i_hold t l) t (R_acquire c) m
  | R_acquire c => take_lock_guard t (R_clear_user c) m
  | R_clear_user c =>
      Some (goto t (R_set_free c) (with_lock (set_curr_user None l) m))
  | R_set_free c =>
      Some (goto t (R_wake c) (with_lock (set_free true l) m))
  | R_wake c =>
      Some (goto t (R_release c)
              (with_lock_wchan (wchan_wakeone choice (m_lock_wchan m)) m))
  | R_release c => Some (drop_lock_guard t (after_release c) m)
  (* cv_wait *)
  | W_assert_cv cv lock => assert_then (negb (is_null cv)) t (W_assert_lock lock) m
  | W_assert_lock lock => assert_then (negb (is_null lock)) t (W_assert_hold lock) m
  | W_assert_hold lock => assert_then (lock_do_i_hold t l) t (W_acquire lock) m
  | W_acquire lock => take_cv_guard t (W_call_release lock) m
  | W_call_release lock => Some (goto t (R_assert_lock lock (CvWait lock)) m)
  | W_sleep lock =>
      let '(w, g) := wchan_sleep t (m_cv_wchan m) (control_spinlock (m_cv m)) in
      Some (goto t (W_sleeping lock)
              (with_cv_wchan w (with_cv (set_control_spinlock g (m_cv m)) m)))
  | W_sleeping lock =>
      if asleep t (m_cv_wchan m) then None else take_cv_guard t (W_release lock) m
  | W_release lock => Some (drop_cv_guard t (W_call_acquire lock) m)
  | W_call_acquire lock => Some (goto t (A_assert_lock lock (CvWait lock)) m)
  (* cv_signal *)
  | S_assert_cv cv lock => assert_then (negb (is_null cv)) t (S_assert_lock lock) m
  | S_assert_lock lock => assert_then (negb (is_null lock)) t S_assert_hold m
  | S_assert_hold => assert_then (lock_do_i_hold t l) t S_acquire m
  | S_acquire => take_cv_guard t S_wake m
  | S_wake =>
      Some (goto t S_release (with_cv_wchan (wchan_wakeone choice (m_cv_wchan m)) m))
  | S_release => Some (drop_cv_guard t Idle m)
  (* cv_broadcast *)
  | B_assert_cv cv lock => assert_then (negb (is_null cv)) t (B_assert_lock lock) m
  | B_assert_lock lock => assert_then (negb (is_null lock)) t B_assert_hold m
  | B_assert_hold => assert_then (lock_do_i_hold t l) t B_acquire m
  | B_acquire => take_cv_guard t B_wake m
  | B_wake =>
      Some (goto t B_release (with_cv_wchan (wchan_wakeall (m_cv_wchan m)) m))
  | B_release => Some (drop_cv_guard t Idle m)
  end.

Inductive event :=
| Call (t : tid) (o : op)            (* an idle thread enters an operation *)
| Run (t : tid) (choice : nat)       (* a thread executes its next statement *)
| Interrupt (t : tid) (b : bool).    (* an idle thread enters or leaves a handler *)

Definition entry (o : op) : pc :=
  match o with
  | OpAcquire lock => A_assert_lock lock Top
  | OpRelease lock => R_assert_lock lock Top
  | OpWait cv lock => W_assert_cv cv lock
  | OpSignal cv lock => S_assert_cv cv lock
  | OpBroadcast cv lock => B_assert_cv cv lock
  end.

Definition is_idle (p : pc) : bool :=
  match p with Idle => true | _ => false end.

(** A panic halts the kernel. *)
Definition step (m : machine) (e : event) : option machine :=
  if m_panic m then None else
  match e with
  | Call t o => if is_idle (m_pc m t) then Some (goto t (entry o) m) else None
  | Run t choice => exec t choice m
  | Interrupt t b =>
      if is_idle (m_pc m t) then Some (with_interrupt t b m) else None
  end.

Fixpoint run (m : machine) (es : list event) : option machine :=
  match es with
  | [] => Some m
  | e :: es' =>
      match step m e with
      | Some m' => run m' es'
      | None => None
      end
  end.

(** The machine right after [lock_create] and [cv_create] succeeded. *)
Definition boot (lnm lwc cnm cwc : ptr) : machine :=
  Machine (Lock lnm lwc spinlock_init true None) []
          (Cv cnm cwc spinlock_init) []
          (fun _ => Idle) (fun _ => false) false.

Definition reachable (m : machine) : Prop :=
  ∃ lnm lwc cnm cwc es, run (boot lnm lwc cnm cwc) es = Some m.

(** [m_pc m t] is inside [lock_acquire], before the lock is taken. *)
Definition acquiring (p : pc) : bool :=
  match p with
  | A_assert_lock (Some _) _ | A_assert_intr _ | A_acquire _ | A_test _
  | A_sleeping _ => true
  | _ => false
  end.

(** The two fields agree: the lock is free exactly when it has no user. *)
Definition settled (l : lock) : Prop :=
  free l = true ↔ curr_user l = None.

(** The thread an event belongs to. *)
Definition actor (e : event) : tid :=
  match e with
  | Call t _ | Run t _ | Interrupt t _ => t
  end.


(** Thread [t] is inside [lock_acquire], short of taking the lock, while it
    owns that very lock. *)
Definition stuck (t : tid) (m : machine) : Prop :=
  acquiring (m_pc m t) = true ∧ lock_do_i_hold t (m_lock m) = true.

(** *** The invariant of the monitor machine *)

(** What the two fields of the lock look like to the thread [t] that holds
    the guard. *)
Inductive shape :=
| Settled      (* the fields agree *)
| FreeNone     (* free, no user *)
| FreeMine     (* free, user already [t] *)
| HeldMine     (* not free, user [t] *)
| HeldNone.    (* not free, user already cleared *)

(** What a thread's position requires of the lock. *)
Inductive need :=
| NoNeed
| Owner                (* the thread owns the lock *)
| Guard (s : shape).   (* the thread holds the guard and sees [s] *)

Definition lk_need (p : pc) : need :=
  match p with
  | A_test _ => Guard Settled
  | A_set_user _ => Guard FreeNone
  | A_set_free _ => Guard FreeMine
  | A_release _ => Guard HeldMine
  | R_acquire _ => Owner
  | R_clear_user _ => Guard HeldMine
  | R_set_free _ => Guard HeldNone
  | R_wake _ | R_release _ => Guard FreeNone
  | _ => NoNeed
  end.

Definition shaped (s : shape) (t : tid) (l : lock) : Prop :=
  match s with
  | Settled => settled l
  | FreeNone => free l = true ∧ curr_user l = None
  | FreeMine => free l = true ∧ curr_user l = Some t
  | HeldMine => free l = false ∧ curr_user l = Some t
  | HeldNone => free l = false ∧ curr_user l = None
  end.

Definition meets (n : need) (t : tid) (l : lock) : Prop :=
  match n with
  | NoNeed => True
  | Owner => free l = false ∧ curr_user l = Some t
  | Guard s => lock_lock l = Some t ∧ shaped s t l
  end.

Definition holds_guard (n : need) : bool :=
  match n with Guard _ => true | _ => false end.

Record inv (m : machine) : Prop := Inv {
  inv_pc : ∀ t, meets (lk_need (m_pc m t)) t (m_lock m);
  inv_free : lock_lock (m_lock m) = None → settled (m_lock m);
  inv_guard : ∀ t, lock_lock (m_lock m) = Some t →
                   holds_guard (lk_need (m_pc m t)) = true
}.

End Mon.

(** ** Wait channels and guards at rest *)

Module Channels.
Import Mon.

(** The channel of the semaphore holds threads that are inside the
    [wchan_sleep] of [P], each once. *)
Definition sem_chan_ok (m : Sem.machine) : Prop :=
  (∀ t, t ∈ Sem.m_wchan m → Sem.m_pc m t = Sem.P_sleeping)
  ∧ NoDup (Sem.m_wchan m).

(** The statements of [cv_wait], [cv_signal] and [cv_broadcast] between
    taking and dropping the guard of the condition variable; the
    [lock_release] that [cv_wait] calls runs inside. *)
Definition cv_crit (p : pc) : bool :=
  match p with
  | W_call_release _ | W_sleep _ | W_release _ => true
  | R_assert_lock _ (CvWait _) | R_assert_hold (CvWait _) | R_acquire (CvWait _)
  | R_clear_user (CvWait _) | R_set_free (CvWait _) | R_wake (CvWait _)
  | R_release (CvWait _) => true
  | S_wake | S_release | B_wake | B_release => true
  | _ => false
  end.

(** The part of [cv_wait] in which the caller has given the lock up and has
    not yet called [lock_acquire]. *)
Definition off_lock (p : pc) : bool :=
  match p with
  | W_sleep _ | W_sleeping _ | W_release _ | W_call_acquire _ => true
  | _ => false
  end.

Definition lock_sleeper (p : pc) : bool :=
  match p with A_sleeping _ => true | _ => false end.

Definition cv_sleeper (p : pc) : bool :=
  match p with W_sleeping _ => true | _ => false end.

(** The guard of the condition variable is held by the thread inside the
    guarded statements; the two channels hold threads inside the matching
    [wchan_sleep], each once; a thread that gave the lock up in [cv_wait]
    does not own it. *)
Record mon_chan_ok (m : machine) : Prop := MonChanOk {
  cv_guard_ok : ∀ t, cv_crit (m_pc m t) = true
                     ↔ control_spinlock (m_cv m) = Some t;
  lock_chan_ok : ∀ t, t ∈ m_lock_wchan m → lock_sleeper (m_pc m t) = true;
  lock_chan_nodup : NoDup (m_lock_wchan m);
  cv_chan_ok : ∀ t, t ∈ m_cv_wchan m → cv_sleeper (m_pc m t) = true;
  cv_chan_nodup : NoDup (m_cv_wchan m);
  off_lock_ok : ∀ t, off_lock (m_pc m t) = true
                     → lock_do_i_hold t (m_lock m) = false
}.

(** An operation called with a NULL lock or condition variable. *)
Definition has_null (o : op) : bool :=
  match o with
  | OpAcquire lock | OpRelease lock => is_null lock
  | OpWait cv lock | OpSignal cv lock | OpBroadcast cv lock =>
      is_null cv || is_null lock
  end.

(** The operations on the condition variable. *)
Definition cv_op (o : op) : bool :=
  match o with
  | OpWait _ _ | OpSignal _ _ | OpBroadcast _ _ => true
  | _ => false
  end.

(** Two schedules: a whole uncontended [lock_acquire] of the lock by [t],
    and a [cv_wait] of [t] up to and including its sleep. *)
Definition takes (t : tid) : list event :=
  Call t (OpAcquire (Some 1%positive)) :: replicate 7 (Run t 0%nat).
Definition waits (t : tid) : list event :=
  Call t (OpWait (Some 2%positive) (Some 1%positive)) :: replicate 13 (Run t 0%nat).

End Channels.

(** * Properties *)

(** ** Creation and destruction *)

Module KernelFacts.
Import Kernel.

Lemma fresh_unused (h : gmap addr block) : h !! fresh (dom h) = None.
Proof. apply not_elem_of_dom, is_fresh. Qed.

(** An allocation either fails, leaving the heap alone, or returns an
    address that was not in use. *)
Lemma alloc_cases b k :
  (∃ pl, k_plan k = false :: pl ∧ alloc b k = Done NULL (KState (k_heap k) pl))
  ∨ (∃ a, k_heap k !! a = None
          ∧ alloc b k = Done (Some a) (KState (<[a := b]> (k_heap k)) (tail (k_plan k)))).
Proof.
  unfold alloc. destruct (k_plan k) as [|[] pl] eqn:E.
  - right. eexists. split; [apply fresh_unused | reflexivity].
  - right. eexists. split; [apply fresh_unused | reflexivity].
  - left. eauto.
Qed.

Lemma kfree_allocated a b h pl :
  h !! a = None →
  kfree (Some a) (KState (<[a := b]> h) pl) = Done tt (KState h pl).
Proof.
  intros Hfresh. unfold kfree. simpl.
  rewrite lookup_insert_eq. by rewrite delete_insert_eq, delete_id.
Qed.

Lemma kfree_allocated_under a a' b b' h pl :
  h !! a = None → a ≠ a' →
  kfree (Some a) (KState (<[a' := b']> (<[a := b]> h)) pl)
  = Done tt (KState (<[a' := b']> h) pl).
Proof.
  intros Hfresh Hne. unfold kfree. simpl.
  rewrite lookup_insert_ne, lookup_insert_eq by done.
  by rewrite delete_insert_ne, delete_insert_eq, delete_id.
Qed.

Ltac alloc_split b k :=
  let pl := fresh "pl" in
  let a := fresh "a" in
  let Hpl := fresh "Hpl" in
  let Hfresh := fresh "Hfresh" in
  let Ha := fresh "Ha" in
  destruct (alloc_cases b k) as [(pl & Hpl & Ha) | (a & Hfresh & Ha)];
  rewrite Ha; clear Ha; cbn [is_null NULL k_heap k_plan] in *.

(** [sem_create] that fails leaves the heap as it found it. *)
Lemma sem_create_failure_frees name initial_count k k' :
  sem_create name initial_count k = Done NULL k' → k_heap k' = k_heap k.
Proof.
  unfold sem_create, bind, kmalloc, kstrdup, wchan_create, ret.
  alloc_split BRaw k; [intros ?; by simplify_eq/= |].
  match goal with |- context [alloc ?b ?k1] => alloc_split b k1 end.
  { rewrite kfree_allocated by done. intros ?; by simplify_eq/=. }
  match goal with |- context [alloc ?b ?k1] => alloc_split b k1 end.
  { rewrite kfree_allocated by done. rewrite kfree_allocated by done.
    intros ?; by simplify_eq/=. }
  unfold store; simpl.
  unfold NULL.
  match goal with |- context [match ?h !! a with _ => _ end] =>
    destruct (h !! a) end; intros H; discriminate H.
Qed.

(** [cv_create] that fails leaves the heap as it found it. *)
Lemma cv_create_failure_frees name k k' :
  cv_create name k = Done NULL k' → k_heap k' = k_heap k.
Proof.
  unfold cv_create, bind, kmalloc, kstrdup, wchan_create, ret.
  alloc_split BRaw k; [intros ?; by simplify_eq/= |].
  match goal with |- context [alloc ?b ?k1] => alloc_split b k1 end.
  { rewrite kfree_allocated by done. intros ?; by simplify_eq/=. }
  match goal with |- context [alloc ?b ?k1] => alloc_split b k1 end.
  { rewrite kfree_allocated by done. rewrite kfree_allocated by done.
    intros ?; by simplify_eq/=. }
  unfold store; simpl.
  unfold NULL.
  match goal with |- context [match ?h !! a with _ => _ end] =>
    destruct (h !! a) end; intros H; discriminate H.
Qed.

(** [lock_create] is as careful when the lock itself or its name cannot be
    allocated. *)
Lemma lock_create_early_failure_frees name h pl k' :
  lock_create name (KState h (false :: pl)) = Done NULL k'
  ∨ lock_create name (KState h (true :: false :: pl)) = Done NULL k' →
  k_heap k' = h.
Proof.
  unfold lock_create, bind, kmalloc, kstrdup, wchan_create, ret, alloc.
  cbn [k_plan k_heap tail is_null NULL].
  rewrite kfree_allocated by apply fresh_unused.
  intros [H | H]; by simplify_eq/=.
Qed.

(** When the wait channel cannot be allocated, [lock_create] returns NULL
    and the duplicated name stays allocated. *)
Lemma lock_create_wchan_failure name h pl :
  ∃ a, h !! a = None
       ∧ lock_create name (KState h (true :: true :: false :: pl))
         = Done NULL (KState (<[a := BStr name]> h) pl).
Proof.
  unfold lock_create, bind, kmalloc, kstrdup, wchan_create, ret, alloc.
  cbn [k_plan k_heap tail is_null NULL]. unfold kfree at 1.
  set (a := fresh (dom h)).
  set (a' := fresh (dom (<[a := BRaw]> h))).
  assert (Ha : h !! a = None) by apply fresh_unused.
  assert (Ha' : <[a := BRaw]> h !! a' = None) by apply fresh_unused.
  assert (Hne : a ≠ a') by (intros <-; by rewrite lookup_insert_eq in Ha').
  rewrite lookup_insert_ne in Ha' by done.
  exists a'. split; [done |]. unfold NULL at 1. cbv iota.
  by rewrite kfree_allocated_under.
Qed.

(** A lock that [lock_create] returns is free, has no user, an unlocked
    guard and an empty wait channel. *)
Lemma lock_create_success name k a k' :
  lock_create name k = Done (Some a) k' →
  ∃ nm wc, k_heap k' !! a = Some (BLock (Lock (Some nm) (Some wc) spinlock_init true None))
           ∧ k_heap k' !! wc = Some (BWchan (Some nm) [])
           ∧ k_heap k' !! nm = Some (BStr name).
Proof.
  unfold lock_create, bind, kmalloc, kstrdup, wchan_create, ret.
  alloc_split BRaw k; [intros H; discriminate H |].
  match goal with |- context [alloc ?b ?k1] => alloc_split b k1 end.
  { rewrite kfree_allocated by done. intros H; discriminate H. }
  match goal with |- context [alloc ?b ?k1] => alloc_split b k1 end.
  { unfold kfree at 1, NULL at 1. cbv iota.
    rewrite kfree_allocated_under; [intros H; discriminate H | done |].
    intros ->. by rewrite lookup_insert_eq in Hfresh0. }
  unfold store; simpl in *.
  assert (a0 ≠ a1) by (intros ->; by rewrite lookup_insert_eq in Hfresh0).
  assert (a0 ≠ a2).
  { intros ->. by rewrite lookup_insert_ne, lookup_insert_eq in Hfresh1
      by (intros ->; by rewrite lookup_insert_eq in Hfresh1). }
  assert (a1 ≠ a2) by (intros ->; by rewrite lookup_insert_eq in Hfresh1).
  rewrite !lookup_insert_ne, lookup_insert_eq by done.
  intros [= <- <-]. exists a1, a2. simpl.
  rewrite lookup_insert_eq.
  rewrite lookup_insert_ne, lookup_insert_eq by done.
  by rewrite !lookup_insert_ne, lookup_insert_eq by done.
Qed.

(** A semaphore that [sem_create] returns has the count it was given, an
    unlocked guard and an empty wait channel: the state [Sem.boot] starts
    from. *)
Lemma sem_create_success name initial_count k a k' :
  sem_create name initial_count k = Done (Some a) k' →
  ∃ nm wc, k_heap k' !! a
           = Some (BSem (Semaphore (Some nm) (Some wc) spinlock_init initial_count))
           ∧ k_heap k' !! wc = Some (BWchan (Some nm) []).
Proof.
  unfold sem_create, bind, kmalloc, kstrdup, wchan_create, ret.
  alloc_split BRaw k; [intros H; discriminate H |].
  match goal with |- context [alloc ?b ?k1] => alloc_split b k1 end.
  { rewrite kfree_allocated by done. intros H; discriminate H. }
  match goal with |- context [alloc ?b ?k1] => alloc_split b k1 end.
  { rewrite kfree_allocated by done. rewrite kfree_allocated by done.
    intros H; discriminate H. }
  unfold store; simpl in *.
  assert (a0 ≠ a1) by (intros ->; by rewrite lookup_insert_eq in Hfresh0).
  assert (a0 ≠ a2).
  { intros ->. by rewrite lookup_insert_ne, lookup_insert_eq in Hfresh1
      by (intros ->; by rewrite lookup_insert_eq in Hfresh1). }
  assert (a1 ≠ a2) by (intros ->; by rewrite lookup_insert_eq in Hfresh1).
  rewrite !lookup_insert_ne, lookup_insert_eq by done.
  intros [= <- <-]. exists a1, a2. simpl.
  rewrite lookup_insert_eq.
  by rewrite lookup_insert_ne, lookup_insert_eq by done.
Qed.

(** C1 (fails for [lock_create]): with room for the lock and its name but
    none for the wait channel, [lock_create] returns NULL and leaves the
    duplicated name allocated, where [sem_create] and [cv_create] on the same
    input give back everything they took. *)
Theorem lock_create_leaks_name :
  let k0 := KState ∅ [true; true; false] in
  (∃ k' a, lock_create "lk" k0 = Done NULL k'
           ∧ k_heap k0 !! a = None
           ∧ k_heap k' !! a = Some (BStr "lk"))
  ∧ (∃ k', sem_create "sem" 1 k0 = Done NULL k' ∧ k_heap k' = k_heap k0)
  ∧ (∃ k', cv_create "cv" k0 = Done NULL k' ∧ k_heap k' = k_heap k0).
Proof.
  intros k0. split; [| split].
  - destruct (lock_create_wchan_failure "lk" ∅ []) as (a & Ha & Hrun).
    eexists _, a. split; [exact Hrun |]. split; [done |].
    apply lookup_insert_eq.
  - destruct (sem_create "sem" 1 k0) as [[a|] k'| |] eqn:E;
      [vm_compute in E; discriminate E | | vm_compute in E; discriminate E ..].
    exists k'. split; [done |]. by eapply sem_create_failure_frees.
  - destruct (cv_create "cv" k0) as [[a|] k'| |] eqn:E;
      [vm_compute in E; discriminate E | | vm_compute in E; discriminate E ..].
    exists k'. split; [done |]. by eapply cv_create_failure_frees.
Qed.

(** C7: destroying a semaphore, a lock or a condition variable whose wait
    channel has a sleeper stops in a fatal assertion, with nothing freed;
    and [lock_destroy] of a lock that is held or has a user panics before it
    releases anything, whatever its wait channel holds. *)
Theorem destroy_with_sleepers_panics k a :
  (∀ s wc nm t ts,
      k_heap k !! a = Some (BSem s) → sem_wchan s = Some wc →
      k_heap k !! wc = Some (BWchan nm (t :: ts)) →
      sem_destroy (Some a) k = Panic k)
  ∧ (∀ l wc nm t ts,
      k_heap k !! a = Some (BLock l) → lock_wchan l = Some wc →
      k_heap k !! wc = Some (BWchan nm (t :: ts)) →
      lock_destroy (Some a) k = Panic k)
  ∧ (∀ c wc nm t ts,
      k_heap k !! a = Some (BCv c) → control_wchan c = Some wc →
      k_heap k !! wc = Some (BWchan nm (t :: ts)) →
      cv_destroy (Some a) k = Panic k)
  ∧ (∀ l,
      k_heap k !! a = Some (BLock l) →
      free l = false ∨ curr_user l ≠ None →
      lock_destroy (Some a) k = Panic k).
Proof.
  repeat split.
  - intros s wc nm t ts Ha Hwc Hsl.
    unfold sem_destroy, bind, KASSERT, load_sem, load, spinlock_cleanup, ret,
      wchan_destroy, bind.
    simpl. by rewrite Ha, Hwc, Hsl.
  - intros l wc nm t ts Ha Hwc Hsl.
    unfold lock_destroy, bind, KASSERT, load_lock, load, spinlock_cleanup, ret,
      wchan_destroy, bind.
    simpl. rewrite Ha. repeat case_bool_decide; try done.
    by rewrite Hwc, Hsl.
  - intros c wc nm t ts Ha Hwc Hsl.
    unfold cv_destroy, bind, KASSERT, load_cv, load, spinlock_cleanup, ret,
      wchan_destroy, bind.
    simpl. by rewrite Ha, Hwc, Hsl.
  - intros l Ha Hheld.
    unfold lock_destroy, bind, KASSERT, load_lock, load, bind.
    simpl. rewrite Ha. simpl. repeat case_bool_decide; try done.
    destruct Hheld as [Hf | Hu]; congruence.
Qed.

Lemma destroy_with_sleepers_panics_witness :
  let sleepy := BWchan None [7%nat] in
  let k1 := KState (<[1%positive := BSem (Semaphore None (Some 2%positive) None 0)]>
                      {[2%positive := sleepy]}) [] in
  let k2 := KState (<[1%positive := BLock (Lock None (Some 2%positive) None true None)]>
                      {[2%positive := sleepy]}) [] in
  let k3 := KState (<[1%positive := BCv (Cv None (Some 2%positive) None)]>
                      {[2%positive := sleepy]}) [] in
  let k4 := KState {[1%positive := BLock (Lock None None None false (Some 7%nat))]} [] in
  sem_destroy (Some 1%positive) k1 = Panic k1
  ∧ lock_destroy (Some 1%positive) k2 = Panic k2
  ∧ cv_destroy (Some 1%positive) k3 = Panic k3
  ∧ lock_destroy (Some 1%positive) k4 = Panic k4.
Proof.
  intros sleepy k1 k2 k3 k4. split; [| split; [| split]].
  - eapply (proj1 (destroy_with_sleepers_panics k1 1%positive)); reflexivity.
  - eapply (proj1 (proj2 (destroy_with_sleepers_panics k2 1%positive))); reflexivity.
  - eapply (proj1 (proj2 (proj2 (destroy_with_sleepers_panics k3 1%positive))));
      reflexivity.
  - eapply (proj2 (proj2 (proj2 (destroy_with_sleepers_panics k4 1%positive))));
      [reflexivity | left; reflexivity].
Defined.

End KernelFacts.

(** ** The semaphore *)

Module SemFacts.
Import Sem.

Lemma wrap_small z : 0 ≤ z < UINT_MOD → wrap z = z.
Proof. intros. unfold wrap. by apply Z.mod_small. Qed.

Lemma wrap_top : wrap UINT_MOD = 0.
Proof. reflexivity. Qed.

Lemma tally_run_machine o es o' :
  tally_run o es = Some o' → run (t_machine o) es = Some (t_machine o').
Proof.
  revert o. induction es as [|e es IH]; intros o; simpl.
  - by intros [= ->].
  - unfold tally_step. destruct (step (t_machine o) e) as [m1|]; [|done].
    intros H. by apply IH in H.
Qed.

Lemma run_tally o es m' :
  run (t_machine o) es = Some m' →
  ∃ o', tally_run o es = Some o' ∧ t_machine o' = m'.
Proof.
  revert o. induction es as [|e es IH]; intros o; simpl.
  - intros [= <-]. eauto.
  - unfold tally_step. destruct (step (t_machine o) e) as [m1|]; [|done].
    intros H. eapply (IH (Tally m1 _ _)) in H. exact H.
Qed.

Lemma sem_inv_boot nm wc ic :
  0 ≤ ic < UINT_MOD → inv ic (Tally (boot nm wc ic) 0 0).
Proof.
  intros Hic. split; simpl.
  - done.
  - intros t. split; intros H; discriminate H.
  - lia.
Qed.

(** Reading the program counters of a machine after a jump. *)
Ltac pc_cases u t :=
  destruct (decide (t = u)) as [<- | ?];
  [rewrite ?fn_lookup_insert in * | rewrite ?fn_lookup_insert_ne in * by done].

Lemma sem_inv_step ic o e o' : inv ic o → tally_step o e = Some o' → inv ic o'.
Proof.
  intros [Hr Hc Hb] Hstep. unfold tally_step in Hstep.
  destruct o as [m np nv]; simpl in *.
  destruct (step m e) as [m'|] eqn:E; [|done]. injection Hstep as <-.
  unfold step in E. destruct (m_panic m) eqn:Hp; [done|].
  destruct e as [t o | t c | t b].
  - destruct (m_pc m t) eqn:Hpc; try done. simpl in E. injection E as <-.
    split; simpl.
    + done.
    + intros u. pc_cases u t.
      * rewrite <- Hc, Hpc. by destruct o.
      * apply Hc.
    + rewrite !Z.add_0_r.
      destruct (sem_lock (m_sem m)) as [h|] eqn:Hh; [|done].
      pc_cases h t; [|done].
      pose proof (proj2 (Hc t) eq_refl) as X. by rewrite Hpc in X.
  - unfold exec, take_guard, drop_guard, wchan_sleep, spinlock_acquire,
      spinlock_release in E.
    pose proof (Hc t) as Ht.
    destruct (m_pc m t) eqn:Hpc; simpl in Ht, E;
      repeat match type of E with
             | context [if ?b then _ else _] => destruct b eqn:?
             | context [match sem_lock ?s with _ => _ end] =>
                 destruct (sem_lock s) eqn:?
             end;
      try discriminate E; injection E as <-.
    all: split; simpl; rewrite ?Hpc, ?Z.add_0_r.
    all: try assumption.
    all: try (unfold wrap; apply Z.mod_pos_bound; reflexivity).
    all: try (intros u; destruct (decide (t = u)) as [<- | Hne];
              [rewrite fn_lookup_insert
              | rewrite fn_lookup_insert_ne by done; specialize (Hc u)];
              simpl; intuition congruence).
    all: try (destruct (sem_lock (m_sem m)) as [h|] eqn:Hh).
    all: try (destruct (decide (t = h)) as [<- | Hne];
              [rewrite ?fn_lookup_insert
              | rewrite ?fn_lookup_insert_ne by done]).
    all: rewrite ?fn_lookup_insert.
    all: rewrite ?Hpc in *; simpl in *.
    all: try (intuition (try congruence; try lia); fail).
    + rewrite wrap_small by lia. lia.
    + destruct (decide (sem_count (m_sem m) + 1 = UINT_MOD)) as [Htop | Hlow].
      * left. rewrite Htop, wrap_top. lia.
      * right. rewrite wrap_small by lia. lia.
  - destruct (is_idle (m_pc m t)); [|done]. injection E as <-.
    split; simpl; rewrite ?Z.add_0_r; done.
Qed.

Lemma sem_inv_run ic o es o' : inv ic o → tally_run o es = Some o' → inv ic o'.
Proof.
  revert o. induction es as [|e es IH]; intros o Hinv; simpl.
  - by intros [= <-].
  - destruct (tally_step o e) as [o1|] eqn:E; [|done].
    apply IH. by eapply sem_inv_step.
Qed.





Lemma sem_reachable_inv ic m :
  0 ≤ ic < UINT_MOD → reachable ic m → ∃ np nv, inv ic (Tally m np nv).
Proof.
  intros Hic (nm & wc & es & Hrun).
  destruct (run_tally (Tally (boot nm wc ic) 0 0) es m Hrun) as ([m1 np nv] & Ho & <-).
  exists np, nv. eapply sem_inv_run; [by apply sem_inv_boot | exact Ho].
Qed.


(** [P] checks the interrupt flag right after its argument and before it
    touches the guard: in a handler the kernel panics at once. *)
Lemma P_refuses_interrupt_context m t sem c :
  m_panic m = false → m_pc m t = Idle → m_in_interrupt m t = true →
  run m [Call t (OpP (Some sem)); Run t c; Run t c] = Some (panic (goto t P_assert_intr (goto t (P_assert_sem (Some sem)) m))).
Proof.
  intros Hp Hpc Hi. unfold run, step, exec. simpl.
  rewrite Hp, Hpc. simpl. rewrite Hp, fn_lookup_insert. simpl.
  rewrite Hp. rewrite !fn_lookup_insert. by rewrite Hi.
Qed.

End SemFacts.

(** ** The lock and the condition variable *)

Module MonFacts.
Import Mon.

Lemma mon_run_app m es1 es2 :
  run m (es1 ++ es2) = match run m es1 with Some m1 => run m1 es2 | None => None end.
Proof.
  revert m. induction es1 as [|e es1 IH]; intros m; simpl; [done |].
  destruct (step m e); [apply IH | done].
Qed.

Lemma mon_inv_boot lnm lwc cnm cwc : inv (boot lnm lwc cnm cwc).
Proof.
  split; simpl.
  - done.
  - intros _. by unfold settled.
  - discriminate.
Qed.

(** Unfolding one statement of a thread down to the fields it touches. *)
Ltac open_exec E :=
  unfold exec, assert_then, take_lock_guard, drop_lock_guard, take_cv_guard,
    drop_cv_guard, wchan_sleep, spinlock_acquire, spinlock_release,
    lock_do_i_hold in E.

Ltac open_goal :=
  unfold exec, assert_then, take_lock_guard, drop_lock_guard, take_cv_guard,
    drop_cv_guard, wchan_sleep, spinlock_acquire, spinlock_release,
    lock_do_i_hold.

Ltac split_exec E :=
  repeat match type of E with
         | context [bool_decide ?P] => destruct (bool_decide_reflect P)
         | context [if ?b then _ else _] => destruct b eqn:?
         | context [match ?g with Some _ => _ | None => _ end] =>
             destruct g eqn:?
         end.

Lemma mon_inv_step m e m' : inv m → step m e = Some m' → inv m'.
Proof.
  intros [Hpc Hfree Hguard] E. unfold step in E.
  destruct m as [[nm wc g f cu] lw cv cw pcs intr pan]; simpl in *.
  destruct pan; [done |].
  destruct e as [t o | t c | t b].
  - destruct (pcs t) eqn:Ht; simpl in E; try done. injection E as <-.
    split; simpl.
    + intros u. destruct (decide (t = u)) as [<- | Hne];
        [rewrite fn_lookup_insert; by destruct o
        | rewrite fn_lookup_insert_ne by done; apply Hpc].
    + done.
    + intros u Hu. destruct (decide (t = u)) as [<- | Hne];
        [| rewrite fn_lookup_insert_ne by done; by apply Hguard].
      apply Hguard in Hu. by rewrite Ht in Hu.
  - pose proof (Hpc t) as Hme. pose proof (Hguard t) as Hgt.
    open_exec E. simpl in E.
    destruct (pcs t) eqn:Ht; simpl in Hme, Hgt, E; split_exec E;
      try discriminate E; injection E as <-.
    all: try match goal with c0 : caller |- _ => destruct c0 end.
    all: split; simpl.
    all: try (intros u; destruct (decide (t = u)) as [<- | Hne];
              [rewrite fn_lookup_insert
              | rewrite fn_lookup_insert_ne by done; specialize (Hpc u);
                specialize (Hguard u);
                destruct (lk_need (pcs u)) as [| |[]]];
              simpl in *; unfold settled in *; simpl in *;
              destruct f, cu; intuition congruence).
    all: try (simpl in *; unfold settled in *; simpl in *;
              destruct f, cu; intuition congruence).
  - destruct (is_idle (pcs t)); [|done]. injection E as <-. by split.
Qed.

Lemma mon_inv_run m es m' : inv m → run m es = Some m' → inv m'.
Proof.
  revert m. induction es as [|e es IH]; intros m Hinv; simpl.
  - by intros [= <-].
  - destruct (step m e) as [m1|] eqn:E; [|done].
    apply IH. by eapply mon_inv_step.
Qed.

Lemma mon_reachable_inv m : reachable m → inv m.
Proof.
  intros (lnm & lwc & cnm & cwc & es & Hrun).
  eapply mon_inv_run; [apply mon_inv_boot | exact Hrun].
Qed.

Lemma run_step m e es m1 : step m e = Some m1 → run m (e :: es) = run m1 es.
Proof. intros H. simpl. by rewrite H. Qed.

(** Running the next statement of a thread on a machine whose fields are
    explicit. *)
Ltac solo :=
  erewrite run_step;
  [| unfold step; open_goal; simpl;
     rewrite ?fn_lookup_insert; simpl;
     rewrite ?bool_decide_eq_true_2 by done;
     reflexivity].

Lemma wakeone_length choice (w : wchan) :
  length (wchan_wakeone choice w) = pred (length w).
Proof.
  destruct w as [|t w]; [done |]. unfold wchan_wakeone. cbv iota.
  rewrite length_delete; [simpl; lia |].
  apply lookup_lt_is_Some_2, Nat.mod_upper_bound. done.
Qed.

Lemma wakeone_sublist choice (w : wchan) : sublist (wchan_wakeone choice w) w.
Proof.
  destruct w as [|t w]; [done |]. unfold wchan_wakeone. apply sublist_delete.
Qed.

(** A statement of one thread leaves the other threads where they are. *)
Lemma step_pc_other m e m' t :
  step m e = Some m' → actor e ≠ t → m_pc m' t = m_pc m t.
Proof.
  intros E Hne. unfold step in E. destruct (m_panic m); [done |].
  destruct e as [u o | u c | u b]; simpl in Hne.
  - destruct (is_idle (m_pc m u)); [|done]. injection E as <-. simpl.
    by rewrite fn_lookup_insert_ne.
  - open_exec E.
    destruct (m_pc m u); split_exec E; try discriminate E;
      injection E as <-; simpl; rewrite ?fn_lookup_insert_ne by done; done.
  - destruct (is_idle (m_pc m u)); [|done]. by injection E as <-.
Qed.

(** Whether a thread owns the lock is decided by its own statements alone:
    no statement of another thread changes what [lock_do_i_hold] answers
    it.  The two reads of [lock_do_i_hold], made without the guard, can
    therefore be taken in one step. *)
Lemma ownership_decided_by_self m e m' t :
  inv m →
  actor e ≠ t →
  step m e = Some m' →
  lock_do_i_hold t (m_lock m') = lock_do_i_hold t (m_lock m).
Proof.
  intros [Hpc _ _] Hne E. unfold step in E.
  destruct m as [[nm wc g f cu] lw cv cw pcs intr pan]. simpl in *.
  destruct pan; [done |].
  destruct e as [u o | u c | u b]; simpl in Hne.
  - destruct (is_idle (pcs u)); [|done]. by injection E as <-.
  - specialize (Hpc u). open_exec E. simpl in E.
    destruct (pcs u); simpl in Hpc; split_exec E; try discriminate E;
      injection E as <-; unfold lock_do_i_hold; simpl; try done;
      destruct Hpc as (_ & Hf & Hu); simpl in Hf, Hu; subst;
      repeat case_bool_decide; congruence.
  - destruct (is_idle (pcs u)); [|done]. by injection E as <-.
Qed.

(** In particular no statement of another thread takes the lock away from
    its owner. *)
Lemma owner_stable m e m' t :
  inv m →
  lock_do_i_hold t (m_lock m) = true →
  actor e ≠ t →
  step m e = Some m' →
  lock_do_i_hold t (m_lock m') = true.
Proof.
  intros Hinv Hh Hne E. by rewrite (ownership_decided_by_self _ _ _ _ Hinv Hne E).
Qed.

(** A thread recorded as the user, and not in the middle of writing the two
    fields itself, owns the lock. *)
Lemma user_is_owner m t :
  inv m →
  curr_user (m_lock m) = Some t →
  holds_guard (lk_need (m_pc m t)) = false →
  lock_do_i_hold t (m_lock m) = true.
Proof.
  intros [Hpc Hfree Hguard] Hu Hout. unfold lock_do_i_hold.
  rewrite Hu, bool_decide_eq_true_2 by done.
  destruct (lock_lock (m_lock m)) as [u|] eqn:Hg.
  - specialize (Hguard u eq_refl). specialize (Hpc u).
    assert (u ≠ t) by (intros ->; congruence).
    destruct (lk_need (m_pc m u)) as [| | []]; try discriminate Hguard;
      destruct Hpc as (_ & Hs); unfold shaped, settled in Hs;
      rewrite Hu in Hs; destruct (free (m_lock m)); intuition congruence.
  - specialize (Hfree eq_refl). unfold settled in Hfree. rewrite Hu in Hfree.
    destruct (free (m_lock m)); intuition congruence.
Qed.

(** The last statement of [lock_acquire] leaves the caller as the owner. *)
Lemma acquire_returns_owner m t c n m' :
  inv m →
  m_pc m t = A_release c →
  step m (Run t n) = Some m' →
  m_pc m' t = Idle ∧ lock_do_i_hold t (m_lock m') = true.
Proof.
  intros [Hpc _ _] Ht E. specialize (Hpc t). rewrite Ht in Hpc.
  destruct Hpc as (_ & Hf & Hu).
  unfold step in E. destruct (m_panic m); [done |].
  unfold exec in E. rewrite Ht in E. injection E as <-.
  unfold drop_lock_guard, lock_do_i_hold. simpl.
  rewrite fn_lookup_insert, Hf, Hu, bool_decide_eq_true_2 by done.
  by destruct c.
Qed.

(** C2: in every state the monitor machine reaches, [lock_do_i_hold] is
    true for no thread or for exactly one; no statement of another thread
    takes the lock from the thread for which it is true; and the thread that
    completes [lock_acquire] is that thread. *)
Theorem mutual_exclusion m :
  reachable m →
  ((∀ t, lock_do_i_hold t (m_lock m) = false)
   ∨ (∃ t, lock_do_i_hold t (m_lock m) = true
           ∧ ∀ u, lock_do_i_hold u (m_lock m) = true → u = t))
  ∧ (∀ t e m', lock_do_i_hold t (m_lock m) = true → actor e ≠ t →
               step m e = Some m' → lock_do_i_hold t (m_lock m') = true)
  ∧ (∀ t c n m', m_pc m t = A_release c → step m (Run t n) = Some m' →
                 lock_do_i_hold t (m_lock m') = true).
Proof.
  intros Hinv%mon_reachable_inv. split; [| split].
  - unfold lock_do_i_hold. destruct (free (m_lock m)); [by left |].
    destruct (curr_user (m_lock m)) as [t|] eqn:Hu.
    + right. exists t. rewrite bool_decide_eq_true_2 by done. split; [done |].
      intros u. case_bool_decide; [congruence | done].
    + left. intros t. by rewrite bool_decide_eq_false_2.
  - intros t e m'. by apply owner_stable.
  - intros t c n m' Ht E. by eapply acquire_returns_owner.
Qed.

Lemma mutual_exclusion_witness :
  match run (boot None None None None)
          (Call 1%nat (OpAcquire (Some 1%positive)) :: replicate 7 (Run 1%nat 0%nat)) with
  | Some m => lock_do_i_hold 1%nat (m_lock m) = true
              ∧ ∀ u, lock_do_i_hold u (m_lock m) = true → u = 1%nat
  | None => False
  end.
Proof.
  destruct (run _ _) as [m|] eqn:E; [| vm_compute in E; discriminate E].
  assert (lock_do_i_hold 1%nat (m_lock m) = true) as Hh.
  { vm_compute in E. injection E as <-. by vm_compute. }
  destruct (mutual_exclusion m
              (ex_intro _ None (ex_intro _ None (ex_intro _ None
                 (ex_intro _ None (ex_intro _ _ E))))))
    as ([Hnone | (t & Ht & Huniq)] & _ & _).
  - by rewrite Hnone in Hh.
  - split; [done |]. intros u Hu.
    by rewrite (Huniq u Hu), (Huniq 1%nat Hh).
Defined.




(** One thread waits, another signals and releases: the waiter comes back
    from [cv_wait] owning the lock. *)
Example cv_wait_comes_back_with_the_lock :
  let lk := Some 1%positive in
  let cv := Some 2%positive in
  let solo t k := replicate k (Run t 0%nat) in
  ∃ m, run (boot None None None None)
           (Call 1%nat (OpAcquire lk) :: solo 1%nat 7%nat
            ++ Call 1%nat (OpWait cv lk) :: solo 1%nat 13%nat
            ++ Call 2%nat (OpAcquire lk) :: solo 2%nat 7%nat
            ++ Call 2%nat (OpSignal cv lk) :: solo 2%nat 6%nat
            ++ solo 1%nat 7%nat
            ++ Call 2%nat (OpRelease lk) :: solo 2%nat 7%nat
            ++ solo 1%nat 5%nat) = Some m
       ∧ m_pc m 1%nat = Idle
       ∧ lock_do_i_hold 1%nat (m_lock m) = true
       ∧ m_panic m = false.
Proof. eexists. split; [vm_compute; reflexivity |]. by vm_compute. Qed.

Lemma stuck_step m e m' t : inv m → stuck t m → step m e = Some m' → stuck t m'.
Proof.
  intros Hinv [Hacq Hh] E.
  destruct (decide (actor e = t)) as [Heq | Hne].
  - destruct e as [u o | u n | u b]; simpl in Heq; subst u.
    + unfold step in E. destruct (m_panic m); [done |].
      by destruct (m_pc m t).
    + unfold step in E. destruct (m_panic m); [done |].
      unfold lock_do_i_hold in Hh.
      destruct (free (m_lock m)) eqn:Hf; [done |].
      open_exec E. unfold stuck, lock_do_i_hold.
      destruct (m_pc m t) eqn:Ht; try discriminate Hacq;
        try match type of Hacq with
            | acquiring (A_assert_lock ?l _) = true =>
                destruct l; [| discriminate Hacq]
            end;
        rewrite ?Hf in E;
        split_exec E; try discriminate E; injection E as <-; simpl;
        rewrite ?fn_lookup_insert, ?Hf, ?Ht; done.
    + unfold step in E. destruct (m_panic m); [done |].
      by destruct (m_pc m t).
  - split.
    + by rewrite (step_pc_other _ _ _ _ E Hne).
    + by eapply owner_stable.
Qed.

Lemma stuck_run m es m' t : inv m → stuck t m → run m es = Some m' → stuck t m'.
Proof.
  revert m. induction es as [|e es IH]; intros m Hinv Hst; simpl.
  - by intros [= <-].
  - destruct (step m e) as [m1|] eqn:E; [|done].
    apply IH; [by eapply mon_inv_step | by eapply stuck_step].
Qed.

(** C10: a thread that owns the lock and calls [lock_acquire] on it passes
    both entry assertions, takes the guard, finds the lock not free and goes
    to sleep on the lock's wait channel; and under every schedule that
    follows the call it is still inside [lock_acquire], still the owner: the
    call never returns. *)
Theorem reacquire_never_returns m t :
  reachable m →
  m_panic m = false →
  m_pc m t = Idle →
  lock_do_i_hold t (m_lock m) = true →
  (m_in_interrupt m t = false → lock_lock (m_lock m) = None →
   ∀ a n, ∃ m', run m (Call t (OpAcquire (Some a)) :: replicate 4 (Run t n)) = Some m'
                ∧ m_panic m' = false
                ∧ m_pc m' t = A_sleeping Top
                ∧ t ∈ m_lock_wchan m'
                ∧ lock_lock (m_lock m') = None)
  ∧ (∀ a es m', run m (Call t (OpAcquire (Some a)) :: es) = Some m' →
                m_pc m' t ≠ Idle
                ∧ acquiring (m_pc m' t) = true
                ∧ lock_do_i_hold t (m_lock m') = true).
Proof.
  intros Hinv%mon_reachable_inv Hp Hpc Hh. split.
  - intros Hi Hg a n.
    destruct m as [[nm wc g f cu] lw cv cw pcs intr pan].
    unfold lock_do_i_hold in Hh. simpl in Hp, Hpc, Hh, Hi, Hg. subst.
    destruct f; [done |]. case_bool_decide; [subst cu | done].
    cbn [replicate].
    erewrite run_step; [| unfold step; simpl; rewrite Hpc; reflexivity].
    solo.
    erewrite run_step;
      [| unfold step, exec, assert_then; simpl;
         rewrite fn_lookup_insert, Hi; reflexivity].
    solo. solo. eexists. split; [reflexivity |]. simpl.
    rewrite fn_lookup_insert. repeat split; try done.
    apply elem_of_app. right. by apply list_elem_of_singleton.
  - intros a es m' Hrun. simpl in Hrun.
    destruct (step m (Call t (OpAcquire (Some a)))) as [m1|] eqn:E; [|done].
    assert (stuck t m1) as Hst.
    { unfold step in E. rewrite Hp, Hpc in E. injection E as <-.
      split; simpl; [by rewrite fn_lookup_insert | done]. }
    destruct (stuck_run m1 es m' t (mon_inv_step _ _ _ Hinv E) Hst Hrun)
      as [Hacq Hh'].
    split; [| done]. intros Hidle. by rewrite Hidle in Hacq.
Qed.

Lemma reacquire_never_returns_witness :
  match run (boot None None None None)
          (Call 1%nat (OpAcquire (Some 1%positive)) :: replicate 7 (Run 1%nat 0%nat)) with
  | Some m =>
      (∃ m', run m (Call 1%nat (OpAcquire (Some 1%positive))
                      :: replicate 4 (Run 1%nat 0%nat)) = Some m'
             ∧ m_pc m' 1%nat = A_sleeping Top)
      ∧ (∀ m', run m (Call 1%nat (OpAcquire (Some 1%positive))
                        :: replicate 4 (Run 1%nat 0%nat)
                        ++ Call 2%nat (OpAcquire (Some 1%positive))
                        :: replicate 4 (Run 2%nat 0%nat)) = Some m' →
               m_pc m' 1%nat ≠ Idle)
  | None => False
  end.
Proof.
  destruct (run _ _) as [m|] eqn:E; [| vm_compute in E; discriminate E].
  assert (m_panic m = false ∧ m_pc m 1%nat = Idle
          ∧ lock_do_i_hold 1%nat (m_lock m) = true
          ∧ m_in_interrupt m 1%nat = false
          ∧ lock_lock (m_lock m) = None)
    as (Hp & Hpc & Hh & Hi & Hg).
  { vm_compute in E. injection E as <-. by vm_compute. }
  destruct (reacquire_never_returns m 1%nat
              (ex_intro _ None (ex_intro _ None (ex_intro _ None
                 (ex_intro _ None (ex_intro _ _ E))))) Hp Hpc Hh)
    as (Hsleep & Hnever).
  split.
  - destruct (Hsleep Hi Hg 1%positive 0%nat) as (m' & Hr & _ & Hpc' & _).
    by exists m'.
  - intros m' Hr. by destruct (Hnever _ _ _ Hr).
Defined.

(** [lock_acquire] checks the interrupt flag right after its argument and
    before it touches the guard: in a handler the kernel panics at once. *)
Lemma lock_acquire_refuses_interrupt_context m t lock n0 n1 :
  m_panic m = false → m_pc m t = Idle → m_in_interrupt m t = true →
  ∃ m', run m [Call t (OpAcquire (Some lock)); Run t n0; Run t n1] = Some m'
        ∧ m_panic m' = true
        ∧ m_lock m' = m_lock m
        ∧ m_lock_wchan m' = m_lock_wchan m.
Proof.
  intros Hp Hpc Hi.
  destruct m as [l lw cv cw pcs intr pan]. simpl in Hp, Hpc, Hi. subst.
  erewrite run_step; [| unfold step; simpl; rewrite Hpc; reflexivity].
  solo.
  erewrite run_step;
    [| unfold step, exec, assert_then; simpl;
       rewrite fn_lookup_insert, Hi; reflexivity].
  eexists. split; [reflexivity |]. done.
Qed.

(** C3 (fails for [cv_wait]): a thread that took the lock and then runs an
    interrupt handler calls [cv_wait]; the three entry assertions pass, the
    lock is released and the thread goes to sleep on the channel of the
    condition variable, with no panic; [P] and [lock_acquire] called in a
    handler panic before they touch their guard. *)
Theorem cv_wait_sleeps_in_interrupt_context :
  let lk := Some 1%positive in
  let cv := Some 2%positive in
  (∃ m, run (boot None None None None)
            (Call 1%nat (OpAcquire lk) :: replicate 7 (Run 1%nat 0%nat)
             ++ Interrupt 1%nat true
             :: Call 1%nat (OpWait cv lk) :: replicate 13 (Run 1%nat 0%nat)) = Some m
        ∧ m_in_interrupt m 1%nat = true
        ∧ m_panic m = false
        ∧ m_pc m 1%nat = W_sleeping lk
        ∧ m_cv_wchan m = [1%nat]
        ∧ free (m_lock m) = true)
  ∧ (∃ m, run (boot None None None None)
              [Interrupt 1%nat true; Call 1%nat (OpAcquire lk);
               Run 1%nat 0%nat; Run 1%nat 0%nat] = Some m
          ∧ m_panic m = true
          ∧ lock_lock (m_lock m) = None)
  ∧ (∃ m, Sem.run (Sem.boot None None 0)
              [Sem.Interrupt 1%nat true; Sem.Call 1%nat (Sem.OpP lk);
               Sem.Run 1%nat 0%nat; Sem.Run 1%nat 0%nat] = Some m
          ∧ Sem.m_panic m = true
          ∧ sem_lock (Sem.m_sem m) = None).
Proof.
  intros lk cv. split; [| split].
  - eexists. split; [vm_compute; reflexivity |]. by vm_compute.
  - eexists. split; [vm_compute; reflexivity |]. by vm_compute.
  - eexists. split; [vm_compute; reflexivity |]. by vm_compute.
Qed.

End MonFacts.

(** ** Creation and destruction, end to end *)

Module KernelRuns.
Import Kernel KernelFacts.

(** Two heaps built from inserts and deletes at distinct addresses agree. *)
Ltac heap_eq :=
  apply map_eq; intros ?; rewrite ?lookup_delete, ?lookup_insert;
  repeat case_decide; simplify_eq; try done.

(** [sem_create] fails and leaves the heap alone, or adds three blocks. *)
Lemma sem_create_cases name ic k :
  (∃ k', sem_create name ic k = Done NULL k' ∧ k_heap k' = k_heap k)
  ∨ (∃ a nm wc k',
        sem_create name ic k = Done (Some a) k'
        ∧ k_heap k !! a = None ∧ k_heap k !! nm = None ∧ k_heap k !! wc = None
        ∧ a ≠ nm ∧ a ≠ wc ∧ nm ≠ wc
        ∧ k_heap k'
          = <[a := BSem (Semaphore (Some nm) (Some wc) spinlock_init ic)]>
              (<[wc := BWchan (Some nm) []]> (<[nm := BStr name]> (k_heap k)))).
Proof.
  unfold sem_create, bind, kmalloc, kstrdup, wchan_create, ret.
  alloc_split BRaw k; [left; eauto |].
  match goal with |- context [alloc ?b ?k1] => alloc_split b k1 end.
  { rewrite kfree_allocated by done. left; eauto. }
  match goal with |- context [alloc ?b ?k1] => alloc_split b k1 end.
  { rewrite kfree_allocated by done. rewrite kfree_allocated by done.
    left; eauto. }
  right. unfold store; simpl in *.
  assert (a ≠ a0) by (intros ->; by rewrite lookup_insert_eq in Hfresh0).
  assert (a ≠ a1).
  { intros ->. by rewrite lookup_insert_ne, lookup_insert_eq in Hfresh1
      by (intros ->; by rewrite lookup_insert_eq in Hfresh1). }
  assert (a0 ≠ a1) by (intros ->; by rewrite lookup_insert_eq in Hfresh1).
  rewrite !lookup_insert_ne, lookup_insert_eq by done.
  rewrite lookup_insert_ne in Hfresh0 by done.
  rewrite !lookup_insert_ne in Hfresh1 by done.
  exists a, a0, a1. eexists. split; [reflexivity |].
  repeat split; try done. simpl. heap_eq.
Qed.

(** [cv_create] fails and leaves the heap alone, or adds three blocks. *)
Lemma cv_create_cases name k :
  (∃ k', cv_create name k = Done NULL k' ∧ k_heap k' = k_heap k)
  ∨ (∃ a nm wc k',
        cv_create name k = Done (Some a) k'
        ∧ k_heap k !! a = None ∧ k_heap k !! nm = None ∧ k_heap k !! wc = None
        ∧ a ≠ nm ∧ a ≠ wc ∧ nm ≠ wc
        ∧ k_heap k'
          = <[a := BCv (Cv (Some nm) (Some wc) spinlock_init)]>
              (<[wc := BWchan (Some nm) []]> (<[nm := BStr name]> (k_heap k)))).
Proof.
  unfold cv_create, bind, kmalloc, kstrdup, wchan_create, ret.
  alloc_split BRaw k; [left; eauto |].
  match goal with |- context [alloc ?b ?k1] => alloc_split b k1 end.
  { rewrite kfree_allocated by done. left; eauto. }
  match goal with |- context [alloc ?b ?k1] => alloc_split b k1 end.
  { rewrite kfree_allocated by done. rewrite kfree_allocated by done.
    left; eauto. }
  right. unfold store; simpl in *.
  assert (a ≠ a0) by (intros ->; by rewrite lookup_insert_eq in Hfresh0).
  assert (a ≠ a1).
  { intros ->. by rewrite lookup_insert_ne, lookup_insert_eq in Hfresh1
      by (intros ->; by rewrite lookup_insert_eq in Hfresh1). }
  assert (a0 ≠ a1) by (intros ->; by rewrite lookup_insert_eq in Hfresh1).
  rewrite !lookup_insert_ne, lookup_insert_eq by done.
  rewrite lookup_insert_ne in Hfresh0 by done.
  rewrite !lookup_insert_ne in Hfresh1 by done.
  exists a, a0, a1. eexists. split; [reflexivity |].
  repeat split; try done. simpl. heap_eq.
Qed.

(** The three blocks a successful [lock_create] adds. *)
Lemma lock_create_success_heap name k a k' :
  lock_create name k = Done (Some a) k' →
  ∃ nm wc,
    k_heap k !! a = None ∧ k_heap k !! nm = None ∧ k_heap k !! wc = None
    ∧ a ≠ nm ∧ a ≠ wc ∧ nm ≠ wc
    ∧ k_heap k'
      = <[a := BLock (Lock (Some nm) (Some wc) spinlock_init true None)]>
          (<[wc := BWchan (Some nm) []]> (<[nm := BStr name]> (k_heap k))).
Proof.
  unfold lock_create, bind, kmalloc, kstrdup, wchan_create, ret.
  alloc_split BRaw k; [intros H; discriminate H |].
  match goal with |- context [alloc ?b ?k1] => alloc_split b k1 end.
  { rewrite kfree_allocated by done. intros H; discriminate H. }
  match goal with |- context [alloc ?b ?k1] => alloc_split b k1 end.
  { unfold kfree at 1, NULL at 1. cbv iota.
    rewrite kfree_allocated_under; [intros H; discriminate H | done |].
    intros ->. by rewrite lookup_insert_eq in Hfresh0. }
  unfold store; simpl in *.
  assert (a0 ≠ a1) by (intros ->; by rewrite lookup_insert_eq in Hfresh0).
  assert (a0 ≠ a2).
  { intros ->. by rewrite lookup_insert_ne, lookup_insert_eq in Hfresh1
      by (intros ->; by rewrite lookup_insert_eq in Hfresh1). }
  assert (a1 ≠ a2) by (intros ->; by rewrite lookup_insert_eq in Hfresh1).
  rewrite !lookup_insert_ne, lookup_insert_eq by done.
  rewrite lookup_insert_ne in Hfresh0 by done.
  rewrite !lookup_insert_ne in Hfresh1 by done.
  intros [= <- <-]. exists a1, a2. repeat split; try done. simpl. heap_eq.
Qed.

(** Destroying an object whose channel is idle gives back its three blocks. *)
Lemma sem_destroy_frees h pl a nm wc s wn :
  a ≠ nm → a ≠ wc → nm ≠ wc →
  h !! a = Some (BSem s) → sem_name s = Some nm → sem_wchan s = Some wc →
  h !! wc = Some (BWchan wn []) → is_Some (h !! nm) →
  sem_destroy (Some a) (KState h pl)
  = Done tt (KState (delete a (delete nm (delete wc h))) pl).
Proof.
  intros ? ? ? Ha Hnm Hwc Hw [b Hb].
  unfold sem_destroy, bind, KASSERT, load_sem, load, spinlock_cleanup, ret,
    wchan_destroy, kfree, bind. simpl.
  rewrite Ha. simpl. rewrite Hwc, Hw, Hnm. simpl.
  rewrite lookup_delete_ne, Hb by done. simpl.
  by rewrite !lookup_delete_ne, Ha by done.
Qed.

Lemma cv_destroy_frees h pl a nm wc c wn :
  a ≠ nm → a ≠ wc → nm ≠ wc →
  h !! a = Some (BCv c) → cv_name c = Some nm → control_wchan c = Some wc →
  h !! wc = Some (BWchan wn []) → is_Some (h !! nm) →
  cv_destroy (Some a) (KState h pl)
  = Done tt (KState (delete a (delete nm (delete wc h))) pl).
Proof.
  intros ? ? ? Ha Hnm Hwc Hw [b Hb].
  unfold cv_destroy, bind, KASSERT, load_cv, load, spinlock_cleanup, ret,
    wchan_destroy, kfree, bind. simpl.
  rewrite Ha. simpl. rewrite Hwc, Hw, Hnm. simpl.
  rewrite lookup_delete_ne, Hb by done. simpl.
  by rewrite !lookup_delete_ne, Ha by done.
Qed.

Lemma lock_destroy_frees h pl a nm wc l wn :
  a ≠ nm → a ≠ wc → nm ≠ wc →
  h !! a = Some (BLock l) → lk_name l = Some nm → lock_wchan l = Some wc →
  free l = true → curr_user l = None →
  h !! wc = Some (BWchan wn []) → is_Some (h !! nm) →
  lock_destroy (Some a) (KState h pl)
  = Done tt (KState (delete a (delete nm (delete wc h))) pl).
Proof.
  intros ? ? ? Ha Hnm Hwc Hf Hu Hw [b Hb].
  unfold lock_destroy, bind, KASSERT, load_lock, load, spinlock_cleanup, ret,
    wchan_destroy, kfree, bind. simpl.
  rewrite Ha. simpl. rewrite Hf, Hu. simpl. rewrite Hwc, Hw, Hnm. simpl.
  rewrite lookup_delete_ne, Hb by done. simpl.
  by rewrite !lookup_delete_ne, Ha by done.
Qed.


(** X1: [sem_create], given a count of its unsigned type, never panics and
    never touches a block it does not own: it returns NULL and leaves the
    heap exactly as it was, or returns a fresh address and adds three blocks
    to the heap, the semaphore (count as given, guard free), its name and
    its wait channel (no sleeper), every other block being kept. *)
Theorem sem_create_all_or_nothing name initial_count k :
  0 ≤ initial_count < UINT_MOD →
  ∃ r k', sem_create name initial_count k = Done r k'
          ∧ match r with
            | None => k_heap k' = k_heap k
            | Some a =>
                (a ∉ dom (k_heap k))
                ∧ size (k_heap k') = (size (k_heap k) + 3)%nat
                ∧ k_heap k ⊆ k_heap k'
                ∧ ∃ nm wc,
                    k_heap k' !! a
                    = Some (BSem (Semaphore (Some nm) (Some wc) None initial_count))
                    ∧ k_heap k' !! nm = Some (BStr name)
                    ∧ k_heap k' !! wc = Some (BWchan (Some nm) [])
            end.
Proof.
  intros _.
  destruct (sem_create_cases name initial_count k)
    as [(k' & E & Hh) | (a & nm & wc & k' & E & Ha & Hnm & Hwc & ? & ? & ? & Hh)].
  - by exists NULL, k'.
  - exists (Some a), k'. split; [done |]. rewrite Hh.
    split; [by apply not_elem_of_dom |]. split.
    { rewrite !map_size_insert_None; [lia | ..]; by rewrite ?lookup_insert_ne. }
    split.
    { apply map_subseteq_spec. intros i x Hi.
      rewrite !lookup_insert_ne; [done | congruence ..]. }
    exists nm, wc. split; [apply lookup_insert_eq |]. split.
    + rewrite !lookup_insert_ne by done. apply lookup_insert_eq.
    + rewrite lookup_insert_ne by done. apply lookup_insert_eq.
Qed.

Lemma sem_create_all_or_nothing_witness :
  (∃ a k', sem_create "sem" 3 (KState ∅ []) = Done (Some a) k'
           ∧ size (k_heap k') = 3%nat
           ∧ ∃ nm wc, k_heap k' !! a
                      = Some (BSem (Semaphore (Some nm) (Some wc) None 3)))
  ∧ (∃ k', sem_create "sem" 3 (KState ∅ [true; false]) = Done NULL k'
           ∧ k_heap k' = ∅).
Proof.
  assert (0 ≤ 3 < UINT_MOD) as Hic by (unfold UINT_MOD; lia).
  split.
  - destruct (sem_create_all_or_nothing "sem" 3 (KState ∅ []) Hic)
      as ([a|] & k' & E & H); [| vm_compute in E; discriminate E].
    destruct H as (_ & Hsz & _ & nm & wc & Ha & _).
    exists a, k'. split; [done |]. split; [| by exists nm, wc].
    rewrite Hsz. simpl. by rewrite map_size_empty.
  - destruct (sem_create_all_or_nothing "sem" 3 (KState ∅ [true; false]) Hic)
      as ([a|] & k' & E & H); [vm_compute in E; discriminate E |].
    by exists k'.
Defined.

(** X2: [cv_create] never panics: it returns NULL and leaves the heap
    exactly as it was, or returns a fresh address and adds three blocks, the
    condition variable (guard free), its name and its wait channel (no
    sleeper), every other block being kept. *)
Theorem cv_create_all_or_nothing name k :
  ∃ r k', cv_create name k = Done r k'
          ∧ match r with
            | None => k_heap k' = k_heap k
            | Some a =>
                (a ∉ dom (k_heap k))
                ∧ size (k_heap k') = (size (k_heap k) + 3)%nat
                ∧ k_heap k ⊆ k_heap k'
                ∧ ∃ nm wc,
                    k_heap k' !! a = Some (BCv (Cv (Some nm) (Some wc) None))
                    ∧ k_heap k' !! nm = Some (BStr name)
                    ∧ k_heap k' !! wc = Some (BWchan (Some nm) [])
            end.
Proof.
  destruct (cv_create_cases name k)
    as [(k' & E & Hh) | (a & nm & wc & k' & E & Ha & Hnm & Hwc & ? & ? & ? & Hh)].
  - by exists NULL, k'.
  - exists (Some a), k'. split; [done |]. rewrite Hh.
    split; [by apply not_elem_of_dom |]. split.
    { rewrite !map_size_insert_None; [lia | ..]; by rewrite ?lookup_insert_ne. }
    split.
    { apply map_subseteq_spec. intros i x Hi.
      rewrite !lookup_insert_ne; [done | congruence ..]. }
    exists nm, wc. split; [apply lookup_insert_eq |]. split.
    + rewrite !lookup_insert_ne by done. apply lookup_insert_eq.
    + rewrite lookup_insert_ne by done. apply lookup_insert_eq.
Qed.

(** X3: [sem_destroy] of the semaphore a successful [sem_create] returned
    completes and gives the heap back exactly as it was before the create. *)
Theorem sem_create_destroy_round_trip name initial_count k a k' :
  sem_create name initial_count k = Done (Some a) k' →
  ∃ k'', sem_destroy (Some a) k' = Done tt k'' ∧ k_heap k'' = k_heap k.
Proof.
  intros E.
  destruct (sem_create_cases name initial_count k)
    as [(k1 & E1 & _) | (a1 & nm & wc & k1 & E1 & Ha & Hnm & Hwc & ? & ? & ? & Hh)];
    rewrite E in E1; [discriminate E1 |]. injection E1 as <- <-.
  destruct k' as [h' pl]. simpl in Hh. eexists. split.
  - apply (sem_destroy_frees h' pl a nm wc
             (Semaphore (Some nm) (Some wc) spinlock_init initial_count) (Some nm));
      try done; rewrite Hh.
    + apply lookup_insert_eq.
    + rewrite lookup_insert_ne by done. apply lookup_insert_eq.
    + rewrite !lookup_insert_ne by done. rewrite lookup_insert_eq. by eexists.
  - simpl. rewrite Hh. heap_eq.
Qed.

Lemma sem_create_destroy_round_trip_witness :
  match sem_create "sem" 3 (KState ∅ []) with
  | Done (Some a) k' =>
      ∃ k'', sem_destroy (Some a) k' = Done tt k'' ∧ k_heap k'' = ∅
  | _ => False
  end.
Proof.
  destruct (sem_create "sem" 3 (KState ∅ [])) as [[a|] k'| |] eqn:E;
    try (vm_compute in E; discriminate E).
  exact (sem_create_destroy_round_trip _ _ _ _ _ E).
Defined.

(** X4: [lock_destroy] of the lock a successful [lock_create] returned
    passes both assertions, completes and gives the heap back exactly as it
    was before the create. *)
Theorem lock_create_destroy_round_trip name k a k' :
  lock_create name k = Done (Some a) k' →
  ∃ k'', lock_destroy (Some a) k' = Done tt k'' ∧ k_heap k'' = k_heap k.
Proof.
  intros E.
  destruct (lock_create_success_heap _ _ _ _ E)
    as (nm & wc & Ha & Hnm & Hwc & ? & ? & ? & Hh).
  destruct k' as [h' pl]. simpl in Hh. eexists. split.
  - apply (lock_destroy_frees h' pl a nm wc
             (Lock (Some nm) (Some wc) spinlock_init true None) (Some nm));
      try done; rewrite Hh.
    + apply lookup_insert_eq.
    + rewrite lookup_insert_ne by done. apply lookup_insert_eq.
    + rewrite !lookup_insert_ne by done. rewrite lookup_insert_eq. by eexists.
  - simpl. rewrite Hh. heap_eq.
Qed.

Lemma lock_create_destroy_round_trip_witness :
  match lock_create "lk" (KState ∅ []) with
  | Done (Some a) k' =>
      ∃ k'', lock_destroy (Some a) k' = Done tt k'' ∧ k_heap k'' = ∅
  | _ => False
  end.
Proof.
  destruct (lock_create "lk" (KState ∅ [])) as [[a|] k'| |] eqn:E;
    try (vm_compute in E; discriminate E).
  exact (lock_create_destroy_round_trip _ _ _ _ E).
Defined.

(** X5: [cv_destroy] of the condition variable a successful [cv_create]
    returned completes and gives the heap back exactly as it was before the
    create. *)
Theorem cv_create_destroy_round_trip name k a k' :
  cv_create name k = Done (Some a) k' →
  ∃ k'', cv_destroy (Some a) k' = Done tt k'' ∧ k_heap k'' = k_heap k.
Proof.
  intros E.
  destruct (cv_create_cases name k)
    as [(k1 & E1 & _) | (a1 & nm & wc & k1 & E1 & Ha & Hnm & Hwc & ? & ? & ? & Hh)];
    rewrite E in E1; [discriminate E1 |]. injection E1 as <- <-.
  destruct k' as [h' pl]. simpl in Hh. eexists. split.
  - apply (cv_destroy_frees h' pl a nm wc
             (Cv (Some nm) (Some wc) spinlock_init) (Some nm));
      try done; rewrite Hh.
    + apply lookup_insert_eq.
    + rewrite lookup_insert_ne by done. apply lookup_insert_eq.
    + rewrite !lookup_insert_ne by done. rewrite lookup_insert_eq. by eexists.
  - simpl. rewrite Hh. heap_eq.
Qed.

Lemma cv_create_destroy_round_trip_witness :
  match cv_create "cv" (KState ∅ []) with
  | Done (Some a) k' =>
      ∃ k'', cv_destroy (Some a) k' = Done tt k'' ∧ k_heap k'' = ∅
  | _ => False
  end.
Proof.
  destruct (cv_create "cv" (KState ∅ [])) as [[a|] k'| |] eqn:E;
    try (vm_compute in E; discriminate E).
  exact (cv_create_destroy_round_trip _ _ _ _ E).
Defined.

End KernelRuns.

(** ** Sleeping and waking *)

Module ChanFacts.

Lemma awake_off_channel (t : tid) (w : wchan) : t ∉ w → asleep t w = false.
Proof. intros. unfold asleep. by rewrite bool_decide_eq_false_2. Qed.

(** Waking the sleeper at a given place takes it, and nobody else, off the
    channel. *)
Lemma wakeone_middle (u : tid) (w1 w2 : wchan) :
  wchan_wakeone (length w1) (w1 ++ u :: w2) = w1 ++ w2.
Proof.
  unfold wchan_wakeone. destruct (w1 ++ u :: w2) eqn:E.
  - by destruct w1.
  - rewrite <- E. rewrite Nat.mod_small; [apply delete_middle |].
    rewrite length_app. simpl. lia.
Qed.

Lemma middle_once (u : tid) (w1 w2 : wchan) : NoDup (w1 ++ u :: w2) → u ∉ w1 ++ w2.
Proof.
  intros (_ & Hdis & (Hu2 & _)%list.NoDup_cons)%list.NoDup_app.
  intros [H1 | H2]%elem_of_app; [| done].
  apply (Hdis u H1), list_elem_of_here.
Qed.

End ChanFacts.

(** ** The semaphore at work *)

Module SemRuns.
Import Sem SemFacts Channels ChanFacts.

Ltac open_sem E :=
  unfold exec, take_guard, drop_guard, wchan_sleep, spinlock_acquire,
    spinlock_release in E.

Ltac split_sem E :=
  repeat match type of E with
         | context [if ?b then _ else _] => destruct b eqn:?
         | context [match sem_lock ?s with _ => _ end] =>
             destruct (sem_lock s) eqn:?
         end.

(** A thread that is on the channel has no enabled step. *)
Lemma sem_enabled_awake m e m' :
  sem_chan_ok m → step m e = Some m' → actor e ∉ m_wchan m.
Proof.
  intros [Hsl _] E Hin. pose proof (Hsl _ Hin) as Hpc.
  unfold step in E. destruct (m_panic m); [done |].
  destruct e as [t o | t c | t b]; simpl in Hin, Hpc; rewrite ?Hpc in E;
    try discriminate E.
  unfold exec, asleep in E. rewrite Hpc in E.
  by rewrite bool_decide_eq_true_2 in E.
Qed.

Lemma sem_chan_step m e m' : sem_chan_ok m → step m e = Some m' → sem_chan_ok m'.
Proof.
  intros Hok E. pose proof (sem_enabled_awake _ _ _ Hok E) as Hout.
  destruct Hok as [Hsl Hnd].
  unfold step in E. destruct (m_panic m); [done |].
  destruct e as [t o | t c | t b]; simpl in Hout.
  - destruct (is_idle (m_pc m t)); [|done]. injection E as <-.
    split; [| done]. simpl. intros u Hu.
    rewrite fn_lookup_insert_ne; [by apply Hsl | congruence].
  - open_sem E.
    destruct (m_pc m t) eqn:Hpc; split_sem E; try discriminate E;
      injection E as <-; (split; simpl; [intros u Hu | try done]).
    all: try (rewrite fn_lookup_insert_ne; [by apply Hsl | congruence]).
    all: try (by apply Hsl).
    + apply elem_of_app in Hu as [Hu | Hu%list_elem_of_singleton].
      * rewrite fn_lookup_insert_ne; [by apply Hsl | congruence].
      * subst. by rewrite fn_lookup_insert.
    + apply list.NoDup_app. split; [done |]. split; [| apply NoDup_singleton].
      intros x Hx ->%list_elem_of_singleton. done.
    + pose proof (MonFacts.wakeone_sublist c (m_wchan m)) as Hsub.
      pose proof (elem_of_sublist _ _ _ Hu Hsub) as Hu'.
      rewrite fn_lookup_insert_ne; [by apply Hsl | congruence].
    + exact (sublist_NoDup _ _ Hnd (MonFacts.wakeone_sublist c _)).
  - destruct (is_idle (m_pc m t)); [|done]. by injection E as <-.
Qed.

Lemma sem_chan_run m es m' : sem_chan_ok m → run m es = Some m' → sem_chan_ok m'.
Proof.
  revert m. induction es as [|e es IH]; intros m Hok; simpl.
  - by intros [= <-].
  - destruct (step m e) as [m1|] eqn:E; [|done].
    apply IH. by eapply sem_chan_step.
Qed.

Lemma sem_chan_reachable ic m : reachable ic m → sem_chan_ok m.
Proof.
  intros (nm & wc & es & Hrun). eapply sem_chan_run; [| exact Hrun].
  split; simpl; [intros t Ht; by apply elem_of_nil in Ht | apply NoDup_nil_2].
Qed.

Lemma sem_run_step m e es m1 : step m e = Some m1 → run m (e :: es) = run m1 es.
Proof. intros H. simpl. by rewrite H. Qed.

Ltac pcs_lookup :=
  repeat (rewrite fn_lookup_insert || rewrite fn_lookup_insert_ne by done).

(** Running the next statement on a machine whose fields are explicit. *)
Ltac sem_solo :=
  erewrite sem_run_step;
  [| unfold step, exec, take_guard, drop_guard, wchan_sleep, spinlock_acquire,
       spinlock_release; simpl; pcs_lookup; simpl; reflexivity].


Local Arguments wrap : simpl never.
Local Arguments wchan_wakeone : simpl never.
Local Arguments asleep : simpl never.

Ltac sem_solo_with tac :=
  erewrite sem_run_step;
  [| unfold step, exec, take_guard, drop_guard, wchan_sleep, spinlock_acquire,
       spinlock_release; simpl; pcs_lookup; simpl; tac; reflexivity].

(** X6: [V] called with the guard free takes the guard, adds one to the
    count, wakes one sleeper of the channel if there is any and gives the
    guard back, whatever the interrupt flag of the caller; when the count is
    already the largest unsigned value, the increment wraps to zero and the
    assertion that follows stops the kernel, the channel untouched. *)
Theorem V_increments_and_wakes_one m t :
  m_panic m = false →
  m_pc m t = Idle →
  sem_lock (m_sem m) = None →
  0 ≤ sem_count (m_sem m) < UINT_MOD →
  ∀ a n,
    (sem_count (m_sem m) + 1 < UINT_MOD →
     ∃ m', run m (Call t (OpV (Some a)) :: replicate 6 (Run t n)) = Some m'
           ∧ sem_count (m_sem m') = sem_count (m_sem m) + 1
           ∧ m_wchan m' = wchan_wakeone n (m_wchan m)
           ∧ length (m_wchan m') = pred (length (m_wchan m))
           ∧ sem_lock (m_sem m') = None
           ∧ m_pc m' t = Idle
           ∧ m_panic m' = false)
    ∧ (sem_count (m_sem m) + 1 = UINT_MOD →
       ∃ m', run m (Call t (OpV (Some a)) :: replicate 4 (Run t n)) = Some m'
             ∧ m_panic m' = true
             ∧ sem_count (m_sem m') = 0
             ∧ m_wchan m' = m_wchan m).
Proof.
  intros Hp Hpc Hg Hr a n.
  destruct m as [[nm wc g c] w pcs intr pan]. simpl in Hp, Hpc, Hg, Hr. subst.
  cbn [replicate]. split.
  - intros Hlt. cbn [sem_count m_sem] in Hlt.
    erewrite sem_run_step; [| unfold step; simpl; rewrite Hpc; reflexivity].
    sem_solo. sem_solo. sem_solo.
    erewrite sem_run_step;
      [| unfold step, exec; simpl; pcs_lookup; simpl;
         rewrite wrap_small by lia;
         destruct (Z.ltb_spec 0 (c + 1)); [reflexivity | lia]].
    sem_solo. sem_solo.
    eexists. split; [reflexivity |]. simpl. pcs_lookup.
    rewrite ?wrap_small by lia. repeat split; try done.
    apply MonFacts.wakeone_length.
  - intros Htop. cbn [sem_count m_sem] in Htop.
    erewrite sem_run_step; [| unfold step; simpl; rewrite Hpc; reflexivity].
    sem_solo. sem_solo. sem_solo.
    erewrite sem_run_step;
      [| unfold step, exec; simpl; pcs_lookup; simpl;
         rewrite Htop, wrap_top; reflexivity].
    eexists. split; [reflexivity |]. simpl. by rewrite ?Htop, ?wrap_top.
Qed.

Lemma V_increments_and_wakes_one_witness :
  match run (boot None None 0)
          (Call 2%nat (OpP (Some 1%positive)) :: replicate 4 (Run 2%nat 0%nat)) with
  | Some m =>
      m_wchan m = [2%nat]
      ∧ ∃ m', run m (Call 1%nat (OpV (Some 1%positive))
                       :: replicate 6 (Run 1%nat 0%nat)) = Some m'
              ∧ sem_count (m_sem m') = 1
              ∧ m_wchan m' = []
  | None => False
  end.
Proof.
  destruct (run _ _) as [m|] eqn:E; [| vm_compute in E; discriminate E].
  assert (m_panic m = false ∧ m_pc m 1%nat = Idle ∧ sem_lock (m_sem m) = None
          ∧ sem_count (m_sem m) = 0 ∧ m_wchan m = [2%nat])
    as (Hp & Hpc & Hg & Hc & Hw).
  { vm_compute in E. injection E as <-. by vm_compute. }
  split; [done |].
  assert (0 ≤ sem_count (m_sem m) < UINT_MOD) as Hr
    by (rewrite Hc; unfold UINT_MOD; lia).
  destruct (V_increments_and_wakes_one m 1%nat Hp Hpc Hg Hr 1%positive 0%nat)
    as (Hok & _).
  destruct Hok as (m' & Hrun & Hc' & Hw' & _);
    [rewrite Hc; unfold UINT_MOD; lia |].
  exists m'. split; [done |]. rewrite Hc', Hw', Hc, Hw. done.
Defined.


(** X7: in every state the semaphore machine reaches, the wait channel
    holds only threads inside the [wchan_sleep] of [P], none of which can
    execute a statement before it is woken; no thread is on it twice; and it
    is empty when every thread is outside [P] and [V]. *)
Theorem semaphore_sleepers_are_in_P initial_count m :
  reachable initial_count m →
  (∀ t, t ∈ m_wchan m → m_pc m t = P_sleeping ∧ ∀ n, step m (Run t n) = None)
  ∧ NoDup (m_wchan m)
  ∧ ((∀ t, m_pc m t = Idle) → m_wchan m = []).
Proof.
  intros [Hsl Hnd]%sem_chan_reachable. split; [| split; [done |]].
  - intros t Ht. split; [by apply Hsl |]. intros n.
    unfold step, exec, asleep. rewrite (Hsl t Ht).
    rewrite (bool_decide_eq_true_2 _ Ht). by destruct (m_panic m).
  - intros Hidle. destruct (m_wchan m) as [|t w]; [done |].
    specialize (Hsl t (list_elem_of_here _ _)). by rewrite Hidle in Hsl.
Qed.

Lemma semaphore_sleepers_are_in_P_witness :
  match run (boot None None 0)
          (Call 2%nat (OpP (Some 1%positive)) :: replicate 4 (Run 2%nat 0%nat)) with
  | Some m => m_wchan m = [2%nat] ∧ m_pc m 2%nat = P_sleeping
              ∧ step m (Run 2%nat 0%nat) = None
  | None => False
  end.
Proof.
  destruct (run _ _) as [m|] eqn:E; [| vm_compute in E; discriminate E].
  assert (m_wchan m = [2%nat]) as Hw.
  { vm_compute in E. injection E as <-. by vm_compute. }
  destruct (semaphore_sleepers_are_in_P 0 m
              (ex_intro _ None (ex_intro _ None (ex_intro _ _ E))))
    as (Hsl & _ & _).
  destruct (Hsl 2%nat) as (Hpc & Hst); [rewrite Hw; apply list_elem_of_here |].
  by repeat split.
Defined.

(** X8: in every state the semaphore machine reaches, whoever holds the
    guard stands between the [spinlock_acquire] and the [spinlock_release]
    of [P] or [V]; no two threads stand there; and the guard is free when
    every thread is outside [P] and [V]. *)
Theorem semaphore_guard_is_given_back initial_count m :
  0 ≤ initial_count < UINT_MOD →
  reachable initial_count m →
  (∀ t, sem_lock (m_sem m) = Some t → crit (m_pc m t) = true)
  ∧ (∀ t u, crit (m_pc m t) = true → crit (m_pc m u) = true → t = u)
  ∧ ((∀ t, m_pc m t = Idle) → sem_lock (m_sem m) = None).
Proof.
  intros Hic Hreach.
  destruct (sem_reachable_inv _ _ Hic Hreach) as (np & nv & [_ Hc _]).
  simpl in Hc. split; [| split].
  - intros t. apply Hc.
  - intros t u Ht%Hc Hu%Hc. congruence.
  - intros Hidle. destruct (sem_lock (m_sem m)) as [t|]; [| done].
    pose proof (proj2 (Hc t) eq_refl) as Hg. by rewrite Hidle in Hg.
Qed.

Lemma semaphore_guard_is_given_back_witness :
  match run (boot None None 1)
          (Call 1%nat (OpP (Some 1%positive)) :: replicate 3 (Run 1%nat 0%nat)) with
  | Some m => sem_lock (m_sem m) = Some 1%nat ∧ crit (m_pc m 1%nat) = true
  | None => False
  end.
Proof.
  destruct (run _ _) as [m|] eqn:E; [| vm_compute in E; discriminate E].
  assert (0 ≤ 1 < UINT_MOD) as Hic by (unfold UINT_MOD; lia).
  assert (sem_lock (m_sem m) = Some 1%nat) as Hg.
  { vm_compute in E. injection E as <-. by vm_compute. }
  destruct (semaphore_guard_is_given_back 1 m Hic
              (ex_intro _ None (ex_intro _ None (ex_intro _ _ E))))
    as (Hin & _ & _).
  split; [done |]. by apply Hin.
Defined.


(** X9: [V] by one thread, waking a given sleeper, followed by the
    statements of that sleeper: the sleeper takes the guard, finds the count
    positive, decrements it and returns from [P]; the count is what it was
    before the [V], the channel has lost that sleeper only, the guard is
    free. *)
Theorem V_lets_a_sleeper_through initial_count m t u w1 w2 :
  reachable initial_count m →
  m_panic m = false →
  m_pc m t = Idle →
  m_wchan m = w1 ++ u :: w2 →
  sem_lock (m_sem m) = None →
  0 ≤ sem_count (m_sem m) →
  sem_count (m_sem m) + 1 < UINT_MOD →
  ∀ a n,
    ∃ m', run m (Call t (OpV (Some a)) :: replicate 6 (Run t (length w1))
                 ++ replicate 5 (Run u n)) = Some m'
          ∧ m_pc m' t = Idle
          ∧ m_pc m' u = Idle
          ∧ sem_count (m_sem m') = sem_count (m_sem m)
          ∧ m_wchan m' = w1 ++ w2
          ∧ sem_lock (m_sem m') = None
          ∧ m_panic m' = false.
Proof.
  intros [Hsl Hnd]%sem_chan_reachable Hp Hpc Hw Hg Hc0 Hc1 a n.
  assert (m_pc m u = P_sleeping) as Hpu.
  { apply Hsl. rewrite Hw. apply elem_of_app. right. apply list_elem_of_here. }
  assert (t ≠ u) as Hne by (intros ->; congruence).
  assert (u ∉ w1 ++ w2) as Hout.
  { rewrite Hw in Hnd. apply list.NoDup_app in Hnd as (_ & Hdis & Hnd2).
    apply list.NoDup_cons in Hnd2 as (Hu2 & _).
    intros [H1 | H2]%elem_of_app; [| done].
    apply (Hdis u H1), list_elem_of_here. }
  destruct m as [[nm wc g c] w pcs intr pan].
  simpl in Hp, Hpc, Hpu, Hw, Hg, Hc0, Hc1. subst.
  cbn [replicate app].
  erewrite sem_run_step; [| unfold step; simpl; rewrite Hpc; reflexivity].
  sem_solo. sem_solo. sem_solo.
  sem_solo_with ltac:(rewrite wrap_small by lia;
                      destruct (Z.ltb_spec 0 (c + 1)); [| lia]).
  sem_solo_with ltac:(rewrite wakeone_middle).
  sem_solo.
  sem_solo_with ltac:(rewrite Hpu, (awake_off_channel _ _ Hout)).
  sem_solo_with ltac:(destruct (Z.eqb_spec (c + 1) 0); [lia |]).
  sem_solo_with ltac:(destruct (Z.ltb_spec 0 (c + 1)); [| lia]).
  sem_solo. sem_solo.
  eexists. split; [reflexivity |]. simpl. pcs_lookup.
  rewrite wrap_small by lia. repeat split; try done. lia.
Qed.


Lemma V_lets_a_sleeper_through_witness :
  match run (boot None None 0)
          (Call 2%nat (OpP (Some 1%positive)) :: replicate 4 (Run 2%nat 0%nat)) with
  | Some m =>
      ∃ m', run m (Call 1%nat (OpV (Some 1%positive))
                     :: replicate 6 (Run 1%nat 0%nat)
                     ++ replicate 5 (Run 2%nat 0%nat)) = Some m'
            ∧ m_pc m' 2%nat = Idle
            ∧ sem_count (m_sem m') = 0
  | None => False
  end.
Proof.
  destruct (run _ _) as [m|] eqn:E; [| vm_compute in E; discriminate E].
  assert (m_panic m = false ∧ m_pc m 1%nat = Idle ∧ sem_lock (m_sem m) = None
          ∧ sem_count (m_sem m) = 0 ∧ m_wchan m = [] ++ 2%nat :: [])
    as (Hp & Hpc & Hg & Hc & Hw).
  { vm_compute in E. injection E as <-. by vm_compute. }
  destruct (V_lets_a_sleeper_through 0 m 1%nat 2%nat [] []
              (ex_intro _ None (ex_intro _ None (ex_intro _ _ E)))
              Hp Hpc Hw Hg) with (a := 1%positive) (n := 0%nat)
    as (m' & Hrun & _ & Hpu & Hc' & _);
    [rewrite Hc; lia | rewrite Hc; unfold UINT_MOD; lia |].
  exists m'. split; [exact Hrun |]. split; [done |]. by rewrite Hc'.
Defined.

(** X10: no FIFO order.  A sleeper that was woken, before it takes the
    guard back, is overtaken by a thread that calls [P] later: that thread
    takes the only unit and returns; the woken thread takes the guard, tests
    the count again, finds zero and is back asleep on the channel. *)
Theorem woken_sleeper_can_find_the_count_taken m u v :
  m_panic m = false →
  u ≠ v →
  m_pc m u = P_sleeping →
  (u ∉ m_wchan m) →
  m_pc m v = Idle →
  m_in_interrupt m v = false →
  sem_lock (m_sem m) = None →
  sem_count (m_sem m) = 1 →
  ∀ a n,
    ∃ m', run m (Call v (OpP (Some a)) :: replicate 7 (Run v n)
                 ++ replicate 2 (Run u n)) = Some m'
          ∧ m_pc m' v = Idle
          ∧ sem_count (m_sem m') = 0
          ∧ m_pc m' u = P_sleeping
          ∧ m_wchan m' = m_wchan m ++ [u]
          ∧ sem_lock (m_sem m') = None
          ∧ m_panic m' = false.
Proof.
  intros Hp Hne Hpu Hout Hpv Hi Hg Hc a n.
  destruct m as [[nm wc g c] w pcs intr pan].
  simpl in Hp, Hpu, Hout, Hpv, Hi, Hg, Hc. subst.
  cbn [replicate app].
  erewrite sem_run_step; [| unfold step; simpl; rewrite Hpv; reflexivity].
  sem_solo.
  sem_solo_with ltac:(rewrite Hi).
  sem_solo. sem_solo. sem_solo. sem_solo. sem_solo.
  sem_solo_with ltac:(rewrite Hpu, (awake_off_channel _ _ Hout)).
  sem_solo.
  eexists. split; [reflexivity |]. simpl. by pcs_lookup.
Qed.

Lemma woken_sleeper_can_find_the_count_taken_witness :
  match run (boot None None 0)
          (Call 2%nat (OpP (Some 1%positive)) :: replicate 4 (Run 2%nat 0%nat)
           ++ Call 1%nat (OpV (Some 1%positive)) :: replicate 6 (Run 1%nat 0%nat)) with
  | Some m =>
      ∃ m', run m (Call 3%nat (OpP (Some 1%positive)) :: replicate 7 (Run 3%nat 0%nat)
                   ++ replicate 2 (Run 2%nat 0%nat)) = Some m'
            ∧ m_pc m' 3%nat = Idle
            ∧ m_pc m' 2%nat = P_sleeping
            ∧ m_wchan m' = [2%nat]
  | None => False
  end.
Proof.
  destruct (run _ _) as [m|] eqn:E; [| vm_compute in E; discriminate E].
  assert (m_panic m = false ∧ m_pc m 2%nat = P_sleeping ∧ m_wchan m = []
          ∧ m_pc m 3%nat = Idle ∧ m_in_interrupt m 3%nat = false
          ∧ sem_lock (m_sem m) = None ∧ sem_count (m_sem m) = 1)
    as (Hp & Hpu & Hw & Hpv & Hi & Hg & Hc).
  { vm_compute in E. injection E as <-. by vm_compute. }
  assert (2%nat ∉ m_wchan m) as Hout by (rewrite Hw; apply not_elem_of_nil).
  destruct (woken_sleeper_can_find_the_count_taken m 2%nat 3%nat Hp
              ltac:(lia) Hpu Hout Hpv Hi Hg Hc 1%positive 0%nat)
    as (m' & Hrun & Hv & _ & Hu & Hw' & _).
  exists m'. rewrite Hw in Hw'. by repeat split.
Defined.

End SemRuns.

(** ** A call of [P], from entry to return *)

Module SemCalls.
Import Sem SemFacts Channels ChanFacts SemRuns.

Local Arguments wrap : simpl never.
Local Arguments wchan_wakeone : simpl never.
Local Arguments asleep : simpl never.








End SemCalls.

(** ** The monitor at work *)

Module MonRuns.
Import Mon MonFacts Channels ChanFacts.

Lemma mon_enabled_awake m e m' :
  mon_chan_ok m → step m e = Some m' →
  (actor e ∉ m_lock_wchan m) ∧ (actor e ∉ m_cv_wchan m).
Proof.
  intros Hok E. unfold step in E. destruct (m_panic m); [done |].
  split; intros Hin.
  - apply (lock_chan_ok _ Hok) in Hin as Hpc.
    destruct e as [t o | t c | t b]; simpl in Hin, Hpc;
      destruct (m_pc m t) eqn:Ht; try discriminate Hpc; try discriminate E.
    unfold exec, asleep in E. rewrite Ht in E.
    by rewrite bool_decide_eq_true_2 in E.
  - apply (cv_chan_ok _ Hok) in Hin as Hpc.
    destruct e as [t o | t c | t b]; simpl in Hin, Hpc;
      destruct (m_pc m t) eqn:Ht; try discriminate Hpc; try discriminate E.
    unfold exec, asleep in E. rewrite Ht in E.
    by rewrite bool_decide_eq_true_2 in E.
Qed.

Lemma mon_chan_boot lnm lwc cnm cwc : mon_chan_ok (boot lnm lwc cnm cwc).
Proof.
  split; simpl; try done; try apply NoDup_nil_2.
  - intros t Ht. by apply elem_of_nil in Ht.
  - intros t Ht. by apply elem_of_nil in Ht.
Qed.

Lemma cv_guard_step m e m' :
  (∀ t, cv_crit (m_pc m t) = true ↔ control_spinlock (m_cv m) = Some t) →
  step m e = Some m' →
  ∀ t, cv_crit (m_pc m' t) = true ↔ control_spinlock (m_cv m') = Some t.
Proof.
  intros Hc E. unfold step in E.
  destruct m as [l lw [cnm cwc cg] cw pcs intr pan]; simpl in *.
  destruct pan; [done |].
  destruct e as [t o | t c | t b].
  - destruct (pcs t) eqn:Ht; simpl in E; try done. injection E as <-.
    simpl. intros u. destruct (decide (t = u)) as [<- | Hne].
    + rewrite fn_lookup_insert. rewrite <- Hc, Ht. by destruct o.
    + rewrite fn_lookup_insert_ne by done. apply Hc.
  - pose proof (Hc t) as Ht'.
    open_exec E. simpl in E.
    destruct (pcs t) eqn:Ht; simpl in Ht', E; split_exec E;
      try discriminate E; injection E as <-.
    all: try match goal with c0 : caller |- _ => destruct c0 end.
    all: simpl in *.
    all: intros u; destruct (decide (t = u)) as [<- | Hne];
         [rewrite ?fn_lookup_insert, ?Ht
         | rewrite ?fn_lookup_insert_ne by done; specialize (Hc u)];
         simpl; intuition congruence.
  - destruct (is_idle (pcs t)); [|done]. by injection E as <-.
Qed.


Local Arguments wchan_wakeone : simpl never.
Local Arguments asleep : simpl never.

Lemma sleepers_step m e m' :
  mon_chan_ok m → step m e = Some m' →
  (∀ t, t ∈ m_lock_wchan m' → lock_sleeper (m_pc m' t) = true)
  ∧ NoDup (m_lock_wchan m')
  ∧ (∀ t, t ∈ m_cv_wchan m' → cv_sleeper (m_pc m' t) = true)
  ∧ NoDup (m_cv_wchan m').
Proof.
  intros Hok E. destruct (mon_enabled_awake _ _ _ Hok E) as [Hout1 Hout2].
  destruct Hok as [_ Hl Hnl Hc Hnc _].
  unfold step in E.
  destruct m as [l lw cv cw pcs intr pan]; simpl in *.
  destruct pan; [done |].
  destruct e as [t o | t c | t b]; simpl in Hout1, Hout2.
  - destruct (is_idle (pcs t)); [|done]. injection E as <-. simpl.
    repeat split; try done; intros u Hu;
      (rewrite fn_lookup_insert_ne; [auto | congruence]).
  - open_exec E. simpl in E.
    destruct (pcs t) eqn:Ht; split_exec E; try discriminate E;
      injection E as <-; simpl.
    all: repeat split; try done.
    all: try (intros u Hu;
              try (apply elem_of_app in Hu as [Hu | Hu%list_elem_of_singleton];
                   [| subst; by rewrite fn_lookup_insert]);
              try (apply (λ H, elem_of_sublist _ _ _ H (wakeone_sublist _ _)) in Hu);
              try (by apply elem_of_nil in Hu);
              rewrite ?fn_lookup_insert_ne by congruence; auto; fail).
    all: try (apply list.NoDup_app; split; [done |];
              split; [| apply NoDup_singleton];
              by intros x Hx ->%list_elem_of_singleton).
    all: try first [exact (sublist_NoDup _ _ Hnl (wakeone_sublist _ _))
                   | exact (sublist_NoDup _ _ Hnc (wakeone_sublist _ _))].
    all: try apply NoDup_nil_2.
  - destruct (is_idle (pcs t)); [|done]. by injection E as <-.
Qed.

Lemma off_lock_step m e m' :
  inv m →
  (∀ t, off_lock (m_pc m t) = true → lock_do_i_hold t (m_lock m) = false) →
  step m e = Some m' →
  ∀ t, off_lock (m_pc m' t) = true → lock_do_i_hold t (m_lock m') = false.
Proof.
  intros Hinv Hoff E u Hu.
  destruct (decide (actor e = u)) as [<- | Hne].
  - destruct Hinv as [Hpc _ _].
    unfold step in E. destruct (m_panic m); [done |].
    destruct e as [t o | t c | t b]; simpl in Hu |- *.
    + destruct (is_idle (m_pc m t)); [|done]. injection E as <-.
      simpl in Hu. rewrite fn_lookup_insert in Hu. by destruct o.
    + specialize (Hpc t). specialize (Hoff t).
      open_exec E.
      destruct (m_pc m t) eqn:Ht; simpl in Hpc, Hoff; split_exec E;
        try discriminate E; injection E as <-; simpl in Hu |- *;
        rewrite ?fn_lookup_insert, ?Ht in Hu;
        try match goal with c0 : caller |- _ => destruct c0 end;
        try discriminate Hu; auto.
      unfold lock_do_i_hold. simpl. by destruct Hpc as (_ & -> & _).
    + destruct (is_idle (m_pc m t)) eqn:Hi; [|done]. injection E as <-.
      simpl in Hu. by destruct (m_pc m t).
  - rewrite (step_pc_other _ _ _ _ E Hne) in Hu.
    rewrite (ownership_decided_by_self _ _ _ _ Hinv Hne E). by apply Hoff.
Qed.

Lemma mon_chan_step m e m' :
  inv m → mon_chan_ok m → step m e = Some m' → mon_chan_ok m'.
Proof.
  intros Hinv Hok E.
  destruct (sleepers_step _ _ _ Hok E) as (? & ? & ? & ?).
  split; try done.
  - eapply cv_guard_step; [apply (cv_guard_ok _ Hok) | exact E].
  - eapply off_lock_step; [exact Hinv | apply (off_lock_ok _ Hok) | exact E].
Qed.

Lemma mon_chan_run m es m' :
  inv m → mon_chan_ok m → run m es = Some m' → mon_chan_ok m'.
Proof.
  revert m. induction es as [|e es IH]; intros m Hinv Hok; simpl.
  - by intros [= <-].
  - destruct (step m e) as [m1|] eqn:E; [|done].
    apply IH; [by eapply mon_inv_step | by eapply mon_chan_step].
Qed.

Lemma mon_chan_reachable m : reachable m → mon_chan_ok m.
Proof.
  intros (lnm & lwc & cnm & cwc & es & Hrun).
  eapply mon_chan_run; [apply mon_inv_boot | apply mon_chan_boot | exact Hrun].
Qed.


Ltac mon_pcs_lookup :=
  repeat (rewrite fn_lookup_insert || rewrite fn_lookup_insert_ne by done).

(** Running the next statement on a machine whose fields are explicit. *)
Ltac mon_solo_with tac :=
  erewrite run_step;
  [| unfold step; open_goal; simpl; mon_pcs_lookup; simpl; tac;
     rewrite ?bool_decide_eq_true_2 by done;
     reflexivity].

Ltac mon_solo := mon_solo_with idtac.

Ltac mon_call Hpc :=
  erewrite run_step;
  [| unfold step; simpl; mon_pcs_lookup; rewrite ?Hpc; simpl; reflexivity].

(** X12: in every state the monitor machine reaches, the guard of the
    condition variable is held exactly by the thread that stands in the
    guarded part of [cv_wait] (from taking the guard, through the
    [lock_release] it calls, to the sleep, and from the wake to the release
    of the guard), of [cv_signal] or of [cv_broadcast]; no two threads stand
    there, so no wake-up runs between a waiter's release of the lock and its
    sleep. *)
Theorem cv_guard_exclusive m :
  reachable m →
  (∀ t, control_spinlock (m_cv m) = Some t ↔ cv_crit (m_pc m t) = true)
  ∧ (∀ t u, cv_crit (m_pc m t) = true → cv_crit (m_pc m u) = true → t = u).
Proof.
  intros Hok%mon_chan_reachable. pose proof (cv_guard_ok _ Hok) as Hc. split.
  - intros t. symmetry. apply Hc.
  - intros t u Ht%Hc Hu%Hc. congruence.
Qed.

(** X13: no operation returns with a spinlock held or with its caller
    still queued: in every reachable state an idle thread holds neither
    guard and is on neither wait channel, and when every thread is idle both
    guards are free, both channels are empty and the lock is free exactly
    when it has no user. *)
Theorem no_guard_is_held_at_rest m :
  reachable m →
  (∀ t, m_pc m t = Idle →
        lock_lock (m_lock m) ≠ Some t ∧ control_spinlock (m_cv m) ≠ Some t
        ∧ (t ∉ m_lock_wchan m) ∧ (t ∉ m_cv_wchan m))
  ∧ ((∀ t, m_pc m t = Idle) →
     lock_lock (m_lock m) = None ∧ control_spinlock (m_cv m) = None
     ∧ m_lock_wchan m = [] ∧ m_cv_wchan m = [] ∧ settled (m_lock m)).
Proof.
  intros Hreach. pose proof (mon_reachable_inv _ Hreach) as [Hpc Hfree Hguard].
  pose proof (mon_chan_reachable _ Hreach) as [Hc Hl _ Hcv _ _].
  assert (∀ t, m_pc m t = Idle →
               lock_lock (m_lock m) ≠ Some t ∧ control_spinlock (m_cv m) ≠ Some t
               ∧ (t ∉ m_lock_wchan m) ∧ (t ∉ m_cv_wchan m)) as Hrest.
  { intros t Ht. repeat split.
    - intros Hg%Hguard. by rewrite Ht in Hg.
    - intros Hg%Hc. by rewrite Ht in Hg.
    - intros Hin%Hl. by rewrite Ht in Hin.
    - intros Hin%Hcv. by rewrite Ht in Hin. }
  split; [done |]. intros Hidle.
  assert (lock_lock (m_lock m) = None) as Hg.
  { destruct (lock_lock (m_lock m)) as [t|] eqn:Hg; [| done].
    by destruct (Hrest t (Hidle t)) as (? & _). }
  split; [done |]. split.
  { destruct (control_spinlock (m_cv m)) as [t|] eqn:Hg'; [| done].
    by destruct (Hrest t (Hidle t)) as (_ & ? & _). }
  split.
  { destruct (m_lock_wchan m) as [|t w] eqn:E; [done |].
    destruct (Hrest t (Hidle t)) as (_ & _ & Hout & _).
    exfalso. apply Hout. apply list_elem_of_here. }
  split; [| by apply Hfree].
  destruct (m_cv_wchan m) as [|t w] eqn:E; [done |].
  destruct (Hrest t (Hidle t)) as (_ & _ & _ & Hout).
  exfalso. apply Hout. apply list_elem_of_here.
Qed.

(** X14: in every reachable state the channel of the lock holds only
    threads inside the [wchan_sleep] of [lock_acquire], the channel of the
    condition variable only threads inside the [wchan_sleep] of [cv_wait],
    none on a channel twice; a queued thread cannot execute a statement; and
    a thread asleep in [cv_wait] does not own the lock. *)
Theorem monitor_sleepers m :
  reachable m →
  (∀ t, t ∈ m_lock_wchan m →
        (∃ c, m_pc m t = A_sleeping c) ∧ ∀ n, step m (Run t n) = None)
  ∧ (∀ t, t ∈ m_cv_wchan m →
          (∃ lock, m_pc m t = W_sleeping lock)
          ∧ lock_do_i_hold t (m_lock m) = false
          ∧ ∀ n, step m (Run t n) = None)
  ∧ NoDup (m_lock_wchan m)
  ∧ NoDup (m_cv_wchan m).
Proof.
  intros [_ Hl Hnl Hcv Hncv Hoff]%mon_chan_reachable.
  split; [| split; [| done]].
  - intros t Ht. pose proof (Hl t Ht) as Hs.
    destruct (m_pc m t) eqn:Hpc; try discriminate Hs.
    split; [by eexists |]. intros n. unfold step, exec, asleep. rewrite Hpc.
    rewrite (bool_decide_eq_true_2 _ Ht). by destruct (m_panic m).
  - intros t Ht. pose proof (Hcv t Ht) as Hs.
    destruct (m_pc m t) eqn:Hpc; try discriminate Hs.
    split; [by eexists |]. split; [apply Hoff; by rewrite Hpc |].
    intros n. unfold step, exec, asleep. rewrite Hpc.
    rewrite (bool_decide_eq_true_2 _ Ht). by destruct (m_panic m).
Qed.




(** X17: [cv_wait], [cv_signal] and [cv_broadcast] called with non-NULL
    arguments by a thread for which [lock_do_i_hold] is false stop the
    kernel in their third assertion, before the guard of the condition
    variable is touched: the lock, the condition variable and both channels
    are as before. *)
Theorem condition_operations_require_the_lock m t o :
  m_panic m = false →
  m_pc m t = Idle →
  cv_op o = true →
  has_null o = false →
  lock_do_i_hold t (m_lock m) = false →
  ∀ n,
    ∃ m', run m (Call t o :: replicate 3 (Run t n)) = Some m'
          ∧ m_panic m' = true
          ∧ m_lock m' = m_lock m
          ∧ m_cv m' = m_cv m
          ∧ m_lock_wchan m' = m_lock_wchan m
          ∧ m_cv_wchan m' = m_cv_wchan m.
Proof.
  intros Hp Hpc Hop Hnn Hh n.
  destruct m as [l lw cv cw pcs intr pan]. simpl in Hp, Hpc, Hh. subst.
  cbn [replicate].
  destruct o as [lk | lk | [c|] [lk|] | [c|] [lk|] | [c|] [lk|]];
    try discriminate Hop; try discriminate Hnn.
  all: mon_call Hpc; mon_solo; mon_solo.
  all: erewrite run_step;
    [| unfold step, exec, assert_then; simpl; mon_pcs_lookup; rewrite Hh; reflexivity].
  all: eexists; split; [reflexivity |]; done.
Qed.

(** X18: every lock and condition variable operation called with a NULL
    lock or a NULL condition variable stops the kernel in one of its first
    two assertions, with the lock, the condition variable and both channels
    as before. *)
Theorem null_arguments_are_fatal m t o :
  m_panic m = false →
  m_pc m t = Idle →
  has_null o = true →
  ∀ n,
    ∃ k m', (k ≤ 2)%nat
            ∧ run m (Call t o :: replicate k (Run t n)) = Some m'
            ∧ m_panic m' = true
            ∧ m_lock m' = m_lock m
            ∧ m_cv m' = m_cv m
            ∧ m_lock_wchan m' = m_lock_wchan m
            ∧ m_cv_wchan m' = m_cv_wchan m.
Proof.
  intros Hp Hpc Hnull n.
  destruct m as [l lw cv cw pcs intr pan]. simpl in Hp, Hpc. subst.
  destruct o as [[lk|] | [lk|] | [c|] [lk|] | [c|] [lk|] | [c|] [lk|]];
    try discriminate Hnull.
  all: try (exists 1%nat; eexists; split; [lia |]; cbn [replicate];
            split; [mon_call Hpc; mon_solo; reflexivity | done]).
  all: exists 2%nat; eexists; split; [lia |]; cbn [replicate];
       split; [mon_call Hpc; mon_solo; mon_solo; reflexivity | done].
Qed.


(** X19: on a free lock, [lock_acquire] in thread context returns without
    sleeping and makes [lock_do_i_hold] true for the caller and for nobody
    else; the caller's [lock_release] then puts the lock back exactly as it
    was, [lock_do_i_hold] false for every thread, having woken one sleeper
    of the lock's channel if there was any. *)
Theorem acquire_then_release_restores_the_lock m t :
  reachable m →
  m_panic m = false →
  m_pc m t = Idle →
  m_in_interrupt m t = false →
  lock_lock (m_lock m) = None →
  free (m_lock m) = true →
  ∀ a n,
    ∃ m1 m2,
      run m (Call t (OpAcquire (Some a)) :: replicate 7 (Run t n)) = Some m1
      ∧ (∀ u, lock_do_i_hold u (m_lock m1) = bool_decide (u = t))
      ∧ lock_lock (m_lock m1) = None
      ∧ m_lock_wchan m1 = m_lock_wchan m
      ∧ m_pc m1 t = Idle
      ∧ run m1 (Call t (OpRelease (Some a)) :: replicate 7 (Run t n)) = Some m2
      ∧ m_lock m2 = m_lock m
      ∧ (∀ u, lock_do_i_hold u (m_lock m2) = false)
      ∧ m_lock_wchan m2 = wchan_wakeone n (m_lock_wchan m)
      ∧ m_pc m2 t = Idle
      ∧ m_panic m2 = false.
Proof.
  intros [_ Hfree _]%mon_reachable_inv Hp Hpc Hi Hg Hf a n.
  specialize (Hfree Hg). unfold settled in Hfree.
  pose proof (proj1 Hfree Hf) as Hu.
  destruct m as [[nm wc g f cu] lw cv cw pcs intr pan].
  simpl in Hp, Hpc, Hi, Hg, Hf, Hu. subst.
  cbn [replicate]. eexists _, _. split.
  { mon_call Hpc. mon_solo. mon_solo_with ltac:(rewrite Hi).
    mon_solo. mon_solo. mon_solo. mon_solo. mon_solo. reflexivity. }
  split.
  { intros u. unfold lock_do_i_hold. simpl.
    destruct (decide (u = t)) as [-> | Hne].
    - by rewrite !bool_decide_eq_true_2.
    - rewrite !bool_decide_eq_false_2; [done | done | congruence]. }
  do 2 (split; [done |]).
  split; [simpl; by mon_pcs_lookup |].
  split.
  { mon_call Hpc. mon_solo. mon_solo. mon_solo. mon_solo. mon_solo. mon_solo.
    mon_solo. reflexivity. }
  split; [done |]. split; [done |]. split; [done |].
  split; [simpl; by mon_pcs_lookup | done].
Qed.

(** X20: [lock_release] by the owner, waking a given sleeper of the lock's
    channel, followed by the statements of that sleeper: the sleeper takes
    the guard, finds the lock free, and returns from [lock_acquire] as the
    owner, the only thread for which [lock_do_i_hold] is true; the channel
    has lost that sleeper only. *)
Theorem lock_release_lets_a_sleeper_in m t u w1 w2 :
  reachable m →
  m_panic m = false →
  m_pc m t = Idle →
  lock_do_i_hold t (m_lock m) = true →
  lock_lock (m_lock m) = None →
  m_lock_wchan m = w1 ++ u :: w2 →
  ∀ a n,
    ∃ m', run m (Call t (OpRelease (Some a)) :: replicate 7 (Run t (length w1))
                 ++ replicate 5 (Run u n)) = Some m'
          ∧ m_pc m' t = Idle
          ∧ m_pc m' u = Idle
          ∧ (∀ v, lock_do_i_hold v (m_lock m') = bool_decide (v = u))
          ∧ m_lock_wchan m' = w1 ++ w2
          ∧ lock_lock (m_lock m') = None
          ∧ m_panic m' = false.
Proof.
  intros Hok%mon_chan_reachable Hp Hpc Hh Hg Hw a n.
  assert (u ∈ m_lock_wchan m) as Hin
    by (rewrite Hw; apply elem_of_app; right; apply list_elem_of_here).
  pose proof (lock_chan_ok _ Hok u Hin) as Hsl.
  pose proof (lock_chan_nodup _ Hok) as Hnd. rewrite Hw in Hnd.
  apply middle_once in Hnd.
  destruct (m_pc m u) eqn:Hpu; try discriminate Hsl.
  assert (t ≠ u) as Hne by (intros ->; congruence).
  destruct m as [[nm wc g f cu] lw cv cw pcs intr pan].
  unfold lock_do_i_hold in Hh. simpl in Hp, Hpc, Hpu, Hh, Hg, Hw. subst.
  destruct f; [done |]. case_bool_decide; [subst cu | done].
  cbn [replicate app].
  mon_call Hpc. mon_solo. mon_solo. mon_solo. mon_solo. mon_solo.
  mon_solo_with ltac:(rewrite wakeone_middle).
  mon_solo.
  mon_solo_with ltac:(rewrite Hpu; simpl; rewrite (awake_off_channel _ _ Hnd)).
  mon_solo. mon_solo. mon_solo. mon_solo.
  eexists. split; [reflexivity |]. simpl. mon_pcs_lookup.
  split; [done |]. split; [by destruct c |]. split; [| done].
  intros v. unfold lock_do_i_hold. simpl.
  destruct (decide (v = u)) as [-> | Hv].
  - by rewrite !bool_decide_eq_true_2.
  - rewrite !bool_decide_eq_false_2; [done | done | congruence].
Qed.


(** X21: the owner of the lock signals a given waiter of the condition
    variable and releases the lock; the waiter, run afterwards, takes and
    drops the guard of the condition variable, goes through [lock_acquire]
    without sleeping and returns from [cv_wait] as the owner of the lock. *)
Theorem signal_then_release_brings_the_waiter_back m t u w1 w2 :
  reachable m →
  m_panic m = false →
  m_pc m t = Idle →
  lock_do_i_hold t (m_lock m) = true →
  lock_lock (m_lock m) = None →
  control_spinlock (m_cv m) = None →
  m_cv_wchan m = w1 ++ u :: w2 →
  m_in_interrupt m u = false →
  ∀ a b n,
    m_pc m u = W_sleeping (Some b) →
    ∃ m', run m (Call t (OpSignal (Some a) (Some b)) :: replicate 6 (Run t (length w1))
                 ++ Call t (OpRelease (Some b)) :: replicate 7 (Run t n)
                 ++ replicate 10 (Run u n)) = Some m'
          ∧ m_pc m' t = Idle
          ∧ m_pc m' u = Idle
          ∧ (∀ v, lock_do_i_hold v (m_lock m') = bool_decide (v = u))
          ∧ m_cv_wchan m' = w1 ++ w2
          ∧ m_lock_wchan m' = wchan_wakeone n (m_lock_wchan m)
          ∧ lock_lock (m_lock m') = None
          ∧ control_spinlock (m_cv m') = None
          ∧ m_panic m' = false.
Proof.
  intros Hok%mon_chan_reachable Hp Hpc Hh Hg Hcg Hw Hi a b n Hpu.
  pose proof (cv_chan_nodup _ Hok) as Hnd. rewrite Hw in Hnd.
  apply middle_once in Hnd. clear Hok.
  assert (t ≠ u) as Hne by (intros ->; congruence).
  destruct m as [[nm wc g f cu] lw [cnm cwc cg] cw pcs intr pan].
  unfold lock_do_i_hold in Hh. simpl in Hp, Hpc, Hpu, Hh, Hg, Hcg, Hw, Hi. subst.
  destruct f; [done |]. case_bool_decide; [subst cu | done].
  cbn [replicate app].
  mon_call Hpc. mon_solo. mon_solo. mon_solo. mon_solo.
  mon_solo_with ltac:(rewrite wakeone_middle).
  mon_solo.
  mon_call Hpc. mon_solo. mon_solo. mon_solo. mon_solo. mon_solo. mon_solo.
  mon_solo.
  mon_solo_with ltac:(rewrite Hpu; simpl; rewrite (awake_off_channel _ _ Hnd)).
  mon_solo. mon_solo. mon_solo.
  mon_solo_with ltac:(rewrite Hi).
  mon_solo. mon_solo. mon_solo. mon_solo. mon_solo.
  eexists. split; [reflexivity |]. simpl. mon_pcs_lookup.
  do 2 (split; [done |]). split; [| done].
  intros v. unfold lock_do_i_hold. simpl.
  destruct (decide (v = u)) as [-> | Hv].
  - by rewrite !bool_decide_eq_true_2.
  - rewrite !bool_decide_eq_false_2; [done | done | congruence].
Qed.


Ltac reached E :=
  exact (ex_intro _ None (ex_intro _ None (ex_intro _ None
           (ex_intro _ None (ex_intro _ _ E))))).

Lemma cv_guard_exclusive_witness :
  match run (boot None None None None)
          (takes 1%nat ++ Call 1%nat (OpWait (Some 2%positive) (Some 1%positive))
                          :: replicate 4 (Run 1%nat 0%nat)) with
  | Some m => control_spinlock (m_cv m) = Some 1%nat ∧ cv_crit (m_pc m 1%nat) = true
  | None => False
  end.
Proof.
  destruct (run _ _) as [m|] eqn:E; [| vm_compute in E; discriminate E].
  assert (control_spinlock (m_cv m) = Some 1%nat) as Hg.
  { vm_compute in E. injection E as <-. by vm_compute. }
  destruct (cv_guard_exclusive m ltac:(reached E)) as (Hc & _).
  split; [done |]. by apply Hc.
Defined.

Lemma no_guard_is_held_at_rest_witness :
  match run (boot None None None None) (takes 1%nat) with
  | Some m => lock_lock (m_lock m) ≠ Some 1%nat
              ∧ control_spinlock (m_cv m) ≠ Some 1%nat
  | None => False
  end.
Proof.
  destruct (run _ _) as [m|] eqn:E; [| vm_compute in E; discriminate E].
  assert (m_pc m 1%nat = Idle) as Hpc.
  { vm_compute in E. injection E as <-. by vm_compute. }
  destruct (no_guard_is_held_at_rest m ltac:(reached E)) as (Hrest & _).
  by destruct (Hrest 1%nat Hpc) as (? & ? & _).
Defined.

Lemma monitor_sleepers_witness :
  match run (boot None None None None) (takes 1%nat ++ waits 1%nat) with
  | Some m => m_cv_wchan m = [1%nat]
              ∧ lock_do_i_hold 1%nat (m_lock m) = false
              ∧ step m (Run 1%nat 0%nat) = None
  | None => False
  end.
Proof.
  destruct (run _ _) as [m|] eqn:E; [| vm_compute in E; discriminate E].
  assert (m_cv_wchan m = [1%nat]) as Hw.
  { vm_compute in E. injection E as <-. by vm_compute. }
  destruct (monitor_sleepers m ltac:(reached E)) as (_ & Hcv & _).
  destruct (Hcv 1%nat) as (_ & Hh & Hst);
    [rewrite Hw; apply list_elem_of_here |].
  by repeat split.
Defined.



Lemma condition_operations_require_the_lock_witness :
  ∃ m', run (boot None None None None)
            (Call 1%nat (OpSignal (Some 2%positive) (Some 1%positive))
               :: replicate 3 (Run 1%nat 0%nat)) = Some m'
        ∧ m_panic m' = true.
Proof.
  destruct (condition_operations_require_the_lock (boot None None None None)
              1%nat (OpSignal (Some 2%positive) (Some 1%positive))
              eq_refl eq_refl eq_refl eq_refl eq_refl 0%nat)
    as (m' & Hrun & Hp & _).
  by exists m'.
Defined.

Lemma null_arguments_are_fatal_witness :
  ∃ k m', run (boot None None None None)
              (Call 1%nat (OpWait (Some 2%positive) None)
                 :: replicate k (Run 1%nat 0%nat)) = Some m'
          ∧ m_panic m' = true.
Proof.
  destruct (null_arguments_are_fatal (boot None None None None)
              1%nat (OpWait (Some 2%positive) None)
              eq_refl eq_refl eq_refl 0%nat)
    as (k & m' & _ & Hrun & Hp & _).
  by exists k, m'.
Defined.

Lemma acquire_then_release_restores_the_lock_witness :
  ∃ m1 m2,
    run (boot None None None None) (takes 1%nat) = Some m1
    ∧ lock_do_i_hold 1%nat (m_lock m1) = true
    ∧ run m1 (Call 1%nat (OpRelease (Some 1%positive))
                :: replicate 7 (Run 1%nat 0%nat)) = Some m2
    ∧ m_lock m2 = m_lock (boot None None None None).
Proof.
  destruct (acquire_then_release_restores_the_lock (boot None None None None) 1%nat
              (ex_intro _ None (ex_intro _ None (ex_intro _ None
                 (ex_intro _ None (ex_intro _ [] eq_refl)))))
              eq_refl eq_refl eq_refl eq_refl eq_refl 1%positive 0%nat)
    as (m1 & m2 & Hr1 & Hh & _ & _ & _ & Hr2 & Hl & _).
  exists m1, m2. split; [exact Hr1 |]. split; [by rewrite Hh |]. by split.
Defined.

Lemma lock_release_lets_a_sleeper_in_witness :
  match run (boot None None None None)
          (takes 1%nat ++ Call 2%nat (OpAcquire (Some 1%positive))
                          :: replicate 4 (Run 2%nat 0%nat)) with
  | Some m =>
      m_lock_wchan m = [2%nat]
      ∧ ∃ m', run m (Call 1%nat (OpRelease (Some 1%positive))
                       :: replicate 7 (Run 1%nat 0%nat)
                       ++ replicate 5 (Run 2%nat 0%nat)) = Some m'
              ∧ m_pc m' 2%nat = Idle
              ∧ lock_do_i_hold 2%nat (m_lock m') = true
  | None => False
  end.
Proof.
  destruct (run _ _) as [m|] eqn:E; [| vm_compute in E; discriminate E].
  assert (m_panic m = false ∧ m_pc m 1%nat = Idle
          ∧ lock_do_i_hold 1%nat (m_lock m) = true
          ∧ lock_lock (m_lock m) = None ∧ m_lock_wchan m = [] ++ 2%nat :: [])
    as (Hp & Hpc & Hh & Hg & Hw).
  { vm_compute in E. injection E as <-. by vm_compute. }
  split; [done |].
  destruct (lock_release_lets_a_sleeper_in m 1%nat 2%nat [] [] ltac:(reached E)
              Hp Hpc Hh Hg Hw 1%positive 0%nat)
    as (m' & Hrun & _ & Hpu & Hh' & _).
  exists m'. split; [exact Hrun |]. split; [done |]. by rewrite Hh'.
Defined.

Lemma signal_then_release_brings_the_waiter_back_witness :
  match run (boot None None None None) (takes 1%nat ++ waits 1%nat ++ takes 2%nat) with
  | Some m =>
      ∃ m', run m (Call 2%nat (OpSignal (Some 2%positive) (Some 1%positive))
                     :: replicate 6 (Run 2%nat 0%nat)
                     ++ Call 2%nat (OpRelease (Some 1%positive))
                     :: replicate 7 (Run 2%nat 0%nat)
                     ++ replicate 10 (Run 1%nat 0%nat)) = Some m'
            ∧ m_pc m' 1%nat = Idle
            ∧ lock_do_i_hold 1%nat (m_lock m') = true
  | None => False
  end.
Proof.
  destruct (run _ _) as [m|] eqn:E; [| vm_compute in E; discriminate E].
  assert (m_panic m = false ∧ m_pc m 2%nat = Idle
          ∧ lock_do_i_hold 2%nat (m_lock m) = true
          ∧ lock_lock (m_lock m) = None
          ∧ control_spinlock (m_cv m) = None
          ∧ m_cv_wchan m = [] ++ 1%nat :: []
          ∧ m_in_interrupt m 1%nat = false
          ∧ m_pc m 1%nat = W_sleeping (Some 1%positive))
    as (Hp & Hpc & Hh & Hg & Hcg & Hw & Hi & Hpu).
  { vm_compute in E. injection E as <-. by vm_compute. }
  destruct (signal_then_release_brings_the_waiter_back m 2%nat 1%nat [] []
              ltac:(reached E) Hp Hpc Hh Hg Hcg Hw Hi 2%positive 1%positive
              0%nat Hpu)
    as (m' & Hrun & _ & Hpu' & Hh' & _).
  exists m'. split; [exact Hrun |]. split; [done |]. by rewrite Hh'.
Defined.

(** X11: [P] and [lock_acquire] called in an interrupt handler stop the
    kernel in their second assertion, whether or not the call would have
    had to sleep, before the guard is touched: the semaphore, the lock and
    their channels are as before. *)
Theorem blocking_calls_refuse_interrupt_context :
  (∀ m t sem n,
      Sem.m_panic m = false → Sem.m_pc m t = Sem.Idle →
      Sem.m_in_interrupt m t = true →
      ∃ m', Sem.run m [Sem.Call t (Sem.OpP (Some sem)); Sem.Run t n; Sem.Run t n]
            = Some m'
            ∧ Sem.m_panic m' = true
            ∧ Sem.m_sem m' = Sem.m_sem m
            ∧ Sem.m_wchan m' = Sem.m_wchan m)
  ∧ (∀ m t lock n,
        m_panic m = false → m_pc m t = Idle → m_in_interrupt m t = true →
        ∃ m', run m [Call t (OpAcquire (Some lock)); Run t n; Run t n] = Some m'
              ∧ m_panic m' = true
              ∧ m_lock m' = m_lock m
              ∧ m_lock_wchan m' = m_lock_wchan m).
Proof.
  split.
  - intros m t sem n Hp Hpc Hi. eexists. split;
      [exact (SemFacts.P_refuses_interrupt_context m t sem n Hp Hpc Hi) | done].
  - intros m t lock n Hp Hpc Hi.
    exact (lock_acquire_refuses_interrupt_context m t lock n n Hp Hpc Hi).
Qed.

Lemma blocking_calls_refuse_interrupt_context_witness :
  (∃ m', Sem.run (Sem.with_interrupt 1%nat true (Sem.boot None None 1))
           [Sem.Call 1%nat (Sem.OpP (Some 1%positive)); Sem.Run 1%nat 0%nat;
            Sem.Run 1%nat 0%nat] = Some m'
         ∧ Sem.m_panic m' = true)
  ∧ (∃ m', run (with_interrupt 1%nat true (boot None None None None))
             [Call 1%nat (OpAcquire (Some 1%positive)); Run 1%nat 0%nat;
              Run 1%nat 0%nat] = Some m'
           ∧ m_panic m' = true).
Proof.
  destruct blocking_calls_refuse_interrupt_context as [HP HA]. split.
  - destruct (HP (Sem.with_interrupt 1%nat true (Sem.boot None None 1))
                1%nat 1%positive 0%nat eq_refl eq_refl eq_refl)
      as (m' & Hrun & Hp & _).
    by exists m'.
  - destruct (HA (with_interrupt 1%nat true (boot None None None None))
                1%nat 1%positive 0%nat eq_refl eq_refl eq_refl)
      as (m' & Hrun & Hp & _).
    by exists m'.
Defined.

End MonRuns.

(** ** [cv_wait] and the two fields of the lock, call by call *)

Module MonCalls.
Import Mon MonFacts Channels ChanFacts MonRuns.

Local Arguments wchan_wakeone : simpl never.
Local Arguments asleep : simpl never.

Lemma mon_reachable_run m es m' : reachable m → run m es = Some m' → reachable m'.
Proof.
  intros (lnm & lwc & cnm & cwc & es0 & H0) H.
  exists lnm, lwc, cnm, cwc, (es0 ++ es). by rewrite mon_run_app, H0.
Qed.







(** With memory for three allocations, [lock_create] returns a lock. *)
Lemma lock_create_succeeds name k :
  (false ∉ take 3 (Kernel.k_plan k)) →
  ∃ a k', Kernel.lock_create name k = Kernel.Done (Some a) k'.
Proof.
  intros Hplan.
  unfold Kernel.lock_create, Kernel.bind, Kernel.kmalloc, Kernel.kstrdup,
    Kernel.wchan_create, Kernel.ret.
  KernelFacts.alloc_split Kernel.BRaw k.
  { exfalso. apply Hplan. rewrite Hpl. apply list_elem_of_here. }
  match goal with |- context [Kernel.alloc ?b ?k1] => KernelFacts.alloc_split b k1 end.
  { exfalso. apply Hplan. destruct (Kernel.k_plan k) as [|b0 pl0]; [done |].
    simpl in *. subst. right. apply list_elem_of_here. }
  match goal with |- context [Kernel.alloc ?b ?k1] => KernelFacts.alloc_split b k1 end.
  { exfalso. apply Hplan. destruct (Kernel.k_plan k) as [|b0 [|b1 pl1]]; try done.
    simpl in *. subst. do 2 right. apply list_elem_of_here. }
  unfold Kernel.store; simpl in *.
  assert (a ≠ a0) by (intros ->; by rewrite lookup_insert_eq in Hfresh0).
  assert (a ≠ a1).
  { intros ->. by rewrite lookup_insert_ne, lookup_insert_eq in Hfresh1
      by (intros ->; by rewrite lookup_insert_eq in Hfresh1). }
  rewrite !lookup_insert_ne, lookup_insert_eq by done.
  by eexists _, _.
Qed.

(** The two fields disagree exactly at the two statements that stand
    between the two writes, and the thread that stands there holds the
    guard. *)
Lemma unsettled_between_writes m :
  inv m →
  ((¬ settled (m_lock m))
   ↔ ∃ t c, m_pc m t = A_set_free c ∨ m_pc m t = R_set_free c)
  ∧ (∀ t c, m_pc m t = A_set_free c ∨ m_pc m t = R_set_free c →
            lock_lock (m_lock m) = Some t).
Proof.
  intros [Hpc Hfree Hguard]. split; [split |].
  - intros Hns. destruct (lock_lock (m_lock m)) as [t|] eqn:Hg;
      [| by destruct Hns; apply Hfree].
    exists t. specialize (Hguard t eq_refl). specialize (Hpc t).
    destruct (m_pc m t) eqn:Ht; try discriminate Hguard; simpl in Hpc;
      try (by eexists; eauto);
      exfalso; apply Hns; destruct Hpc as (_ & Hs); unfold settled;
      try done; destruct Hs as [-> ->]; done.
  - intros (t & c & [Ht | Ht]) Hs; specialize (Hpc t); rewrite Ht in Hpc;
      destruct Hpc as (_ & Hf & Hu); unfold settled in Hs; rewrite Hf, Hu in Hs;
      destruct Hs as [H1 H2]; try discriminate (H1 eq_refl);
      discriminate (H2 eq_refl).
  - intros t c [Ht | Ht]; specialize (Hpc t); rewrite Ht in Hpc; by destruct Hpc.
Qed.

(** C5, the guarded writes set apart: [lock_create], given memory, returns a
    lock that is free and has no user.  In every state the monitor machine
    reaches, the lock is free exactly when it has no user, except while a
    thread stands between the two writes of [lock_acquire] or of
    [lock_release], which it does with the guard held: with the guard free
    the two fields always agree.  [lock_acquire] on a free lock writes the
    user and then clears [free], [lock_release] by the owner clears the user
    and then sets [free], each pair under the guard, and both leave the
    fields in agreement when they give the guard back.  While the lock is
    held its user is the one thread whose [lock_release] passes the
    ownership assertion; any other thread's stops the kernel. *)
Theorem lock_fields_agree m :
  reachable m →
  (∀ name k, (false ∉ take 3 (Kernel.k_plan k)) →
     ∃ a nm wc k',
       Kernel.lock_create name k = Kernel.Done (Some a) k'
       ∧ Kernel.k_heap k' !! a
         = Some (Kernel.BLock (Lock (Some nm) (Some wc) None true None)))
  ∧ (∀ name k a k',
      Kernel.lock_create name k = Kernel.Done (Some a) k' →
      ∃ nm wc, Kernel.k_heap k' !! a
               = Some (Kernel.BLock (Lock (Some nm) (Some wc) None true None)))
  ∧ (lock_lock (m_lock m) = None → settled (m_lock m))
  ∧ ((¬ settled (m_lock m))
     ↔ ∃ t c, m_pc m t = A_set_free c ∨ m_pc m t = R_set_free c)
  ∧ (∀ t c, m_pc m t = A_set_free c ∨ m_pc m t = R_set_free c →
            lock_lock (m_lock m) = Some t)
  ∧ (∀ t c, m_pc m t = A_set_user c →
       lock_lock (m_lock m) = Some t
       ∧ ∀ n1 n2, m_panic m = false → ∃ m', run m [Run t n1; Run t n2] = Some m'
                        ∧ lock_lock (m_lock m') = Some t
                        ∧ free (m_lock m') = false
                        ∧ curr_user (m_lock m') = Some t)
  ∧ (∀ t c, m_pc m t = R_clear_user c →
       lock_lock (m_lock m) = Some t
       ∧ ∀ n1 n2, m_panic m = false → ∃ m', run m [Run t n1; Run t n2] = Some m'
                        ∧ lock_lock (m_lock m') = Some t
                        ∧ free (m_lock m') = true
                        ∧ curr_user (m_lock m') = None)
  ∧ (free (m_lock m) = false → lock_lock (m_lock m) = None →
     ∃ t, curr_user (m_lock m) = Some t
          ∧ ∀ u c n, m_panic m = false → m_pc m u = R_assert_hold c →
                     step m (Run u n)
                     = Some (if decide (u = t) then goto u (R_acquire c) m
                             else panic m))
  ∧ (∀ t a n,
       m_panic m = false → m_pc m t = Idle → m_in_interrupt m t = false →
       lock_lock (m_lock m) = None → free (m_lock m) = true →
       ∃ m1 m2 m3 m4,
         run m (Call t (OpAcquire (Some a)) :: replicate 4 (Run t n)) = Some m1
         ∧ lock_lock (m_lock m1) = Some t
         ∧ free (m_lock m1) = true
         ∧ curr_user (m_lock m1) = None
         ∧ step m1 (Run t n) = Some m2
         ∧ lock_lock (m_lock m2) = Some t
         ∧ free (m_lock m2) = true
         ∧ curr_user (m_lock m2) = Some t
         ∧ step m2 (Run t n) = Some m3
         ∧ lock_lock (m_lock m3) = Some t
         ∧ free (m_lock m3) = false
         ∧ curr_user (m_lock m3) = Some t
         ∧ step m3 (Run t n) = Some m4
         ∧ lock_lock (m_lock m4) = None
         ∧ free (m_lock m4) = false
         ∧ curr_user (m_lock m4) = Some t
         ∧ m_pc m4 t = Idle
         ∧ m_panic m4 = false)
  ∧ (∀ t a n,
       m_panic m = false → m_pc m t = Idle →
       lock_do_i_hold t (m_lock m) = true → lock_lock (m_lock m) = None →
       ∃ m1 m2 m3 m4,
         run m (Call t (OpRelease (Some a)) :: replicate 3 (Run t n)) = Some m1
         ∧ lock_lock (m_lock m1) = Some t
         ∧ free (m_lock m1) = false
         ∧ curr_user (m_lock m1) = Some t
         ∧ step m1 (Run t n) = Some m2
         ∧ lock_lock (m_lock m2) = Some t
         ∧ free (m_lock m2) = false
         ∧ curr_user (m_lock m2) = None
         ∧ step m2 (Run t n) = Some m3
         ∧ lock_lock (m_lock m3) = Some t
         ∧ free (m_lock m3) = true
         ∧ curr_user (m_lock m3) = None
         ∧ run m3 (replicate 2 (Run t n)) = Some m4
         ∧ lock_lock (m_lock m4) = None
         ∧ free (m_lock m4) = true
         ∧ curr_user (m_lock m4) = None
         ∧ m_pc m4 t = Idle
         ∧ m_panic m4 = false)
  ∧ (∀ u a n,
       m_panic m = false → m_pc m u = Idle →
       lock_do_i_hold u (m_lock m) = false →
       ∃ m', run m [Call u (OpRelease (Some a)); Run u n; Run u n] = Some m'
             ∧ m_panic m' = true
             ∧ m_lock m' = m_lock m).
Proof.
  intros Hinv%mon_reachable_inv.
  destruct (unsettled_between_writes m Hinv) as (Hbetween & Hheld).
  destruct Hinv as [Hpc Hfree Hguard].
  split; [| split; [| split; [| split; [| split; [| split; [| split;
    [| split; [| split; [| split]]]]]]]]].
  - intros name k Hplan.
    destruct (lock_create_succeeds name k Hplan) as (a & k' & Hc).
    destruct (KernelFacts.lock_create_success _ _ _ _ Hc) as (nm & wc & H & _).
    by exists a, nm, wc, k'.
  - intros name k a k' Hc.
    destruct (KernelFacts.lock_create_success _ _ _ _ Hc) as (nm & wc & H & _).
    by exists nm, wc.
  - done.
  - done.
  - done.
  - intros t c Ht. pose proof (Hpc t) as Hme. rewrite Ht in Hme.
    destruct Hme as (Hg & Hf & Hu). split; [done |]. intros n1 n2 Hp.
    destruct m as [[nm wc g f cu] lw cv cw pcs intr pan].
    simpl in Hp, Ht, Hg, Hf, Hu. subst.
    erewrite run_step;
      [| unfold step, exec; simpl; rewrite Ht; reflexivity].
    solo. eexists. split; [reflexivity |]. done.
  - intros t c Ht. pose proof (Hpc t) as Hme. rewrite Ht in Hme.
    destruct Hme as (Hg & Hf & Hu). split; [done |]. intros n1 n2 Hp.
    destruct m as [[nm wc g f cu] lw cv cw pcs intr pan].
    simpl in Hp, Ht, Hg, Hf, Hu. subst.
    erewrite run_step;
      [| unfold step, exec; simpl; rewrite Ht; reflexivity].
    solo. eexists. split; [reflexivity |]. done.
  - intros Hf Hg. specialize (Hfree Hg). unfold settled in Hfree.
    destruct (curr_user (m_lock m)) as [t|] eqn:Hu;
      [| rewrite (proj2 Hfree eq_refl) in Hf; discriminate Hf].
    exists t. split; [done |]. intros u c n Hp Ht.
    unfold step, exec, assert_then, lock_do_i_hold. rewrite Hp, Ht, Hf, Hu.
    destruct (decide (u = t)) as [-> | Hne].
    + by rewrite bool_decide_eq_true_2.
    + rewrite bool_decide_eq_false_2; [done | congruence].
  - intros t a n Hp Ht Hi Hg Hf.
    pose proof (proj1 (Hfree Hg) Hf) as Hu.
    clear Hbetween Hheld Hpc Hfree Hguard.
    destruct m as [[nm wc g f cu] lw cv cw pcs intr pan].
    simpl in Hp, Ht, Hi, Hg, Hf, Hu. subst.
    cbn [replicate]. eexists _, _, _, _. split.
    { mon_call Ht. mon_solo. mon_solo_with ltac:(rewrite Hi). mon_solo. mon_solo.
      reflexivity. }
    do 3 (split; [done |]). split.
    { unfold step, exec. simpl. mon_pcs_lookup. reflexivity. }
    do 3 (split; [done |]). split.
    { unfold step, exec. simpl. mon_pcs_lookup. reflexivity. }
    do 3 (split; [done |]). split.
    { unfold step, exec. simpl. mon_pcs_lookup. reflexivity. }
    simpl. by mon_pcs_lookup.
  - intros t a n Hp Ht Hh Hg.
    clear Hbetween Hheld Hpc Hfree Hguard.
    destruct m as [[nm wc g f cu] lw cv cw pcs intr pan].
    unfold lock_do_i_hold in Hh. simpl in Hp, Ht, Hh, Hg. subst.
    destruct f; [done |]. case_bool_decide; [subst cu | done].
    cbn [replicate]. eexists _, _, _, _. split.
    { mon_call Ht. mon_solo. mon_solo. mon_solo. reflexivity. }
    do 3 (split; [done |]). split.
    { unfold step, exec. simpl. mon_pcs_lookup. reflexivity. }
    do 3 (split; [done |]). split.
    { unfold step, exec. simpl. mon_pcs_lookup. reflexivity. }
    do 3 (split; [done |]). split.
    { mon_solo. mon_solo. reflexivity. }
    simpl. by mon_pcs_lookup.
  - intros u a n Hp Ht Hh.
    clear Hbetween Hheld Hpc Hfree Hguard.
    destruct m as [[nm wc g f cu] lw cv cw pcs intr pan].
    simpl in Hp, Ht, Hh. subst.
    mon_call Ht. mon_solo.
    erewrite run_step;
      [| unfold step, exec, assert_then; simpl;
         rewrite fn_lookup_insert, Hh; reflexivity].
    eexists. split; [reflexivity |]. done.
Qed.

Lemma lock_fields_agree_witness :
  (∃ a nm wc k',
     Kernel.lock_create "lk" (Kernel.KState ∅ []) = Kernel.Done (Some a) k'
     ∧ Kernel.k_heap k' !! a
       = Some (Kernel.BLock (m_lock (boot (Some nm) (Some wc) None None))))
  ∧ ∃ m4 m8,
      run (boot None None None None) (takes 1%nat) = Some m4
      ∧ free (m_lock m4) = false
      ∧ curr_user (m_lock m4) = Some 1%nat
      ∧ settled (m_lock m4)
      ∧ run m4 (Call 1%nat (OpRelease (Some 1%positive))
                  :: replicate 7 (Run 1%nat 0%nat)) = Some m8
      ∧ free (m_lock m8) = true
      ∧ curr_user (m_lock m8) = None
      ∧ settled (m_lock m8).
Proof.
  destruct (lock_fields_agree (boot None None None None)
              (ex_intro _ None (ex_intro _ None (ex_intro _ None
                 (ex_intro _ None (ex_intro _ [] eq_refl))))))
    as (Hcreate & _ & _ & _ & _ & _ & _ & _ & Hacq & _).
  split.
  { apply (Hcreate "lk" (Kernel.KState ∅ [])). simpl. apply not_elem_of_nil. }
  destruct (Hacq 1%nat 1%positive 0%nat eq_refl eq_refl eq_refl eq_refl eq_refl)
    as (m1 & m2 & m3 & m4 & Hr1 & _ & _ & _ & Hr2 & _ & _ & _ & Hr3 & _ & _ & _
        & Hr4 & Hg4 & Hf4 & Hu4 & Hpc4 & Hp4).
  assert (run (boot None None None None) (takes 1%nat) = Some m4) as Hrun.
  { change (takes 1%nat)
      with ((Call 1%nat (OpAcquire (Some 1%positive)) :: replicate 4 (Run 1%nat 0%nat))
            ++ [Run 1%nat 0%nat; Run 1%nat 0%nat; Run 1%nat 0%nat]).
    rewrite mon_run_app, Hr1. simpl. by rewrite Hr2, Hr3, Hr4. }
  destruct (lock_fields_agree m4
              (ex_intro _ None (ex_intro _ None (ex_intro _ None
                 (ex_intro _ None (ex_intro _ _ Hrun))))))
    as (_ & _ & Hs4 & _ & _ & _ & _ & _ & _ & Hrel & _).
  assert (lock_do_i_hold 1%nat (m_lock m4) = true) as Hh4.
  { unfold lock_do_i_hold. by rewrite Hf4, Hu4. }
  destruct (Hrel 1%nat 1%positive 0%nat Hp4 Hpc4 Hh4 Hg4)
    as (n1 & n2 & n3 & m8 & Hq1 & _ & _ & _ & Hq2 & _ & _ & _ & Hq3 & _ & _ & _
        & Hq4 & Hg8 & Hf8 & Hu8 & _).
  assert (run m4 (Call 1%nat (OpRelease (Some 1%positive))
                    :: replicate 7 (Run 1%nat 0%nat)) = Some m8) as Hrun8.
  { change (Call 1%nat (OpRelease (Some 1%positive)) :: replicate 7 (Run 1%nat 0%nat))
      with ((Call 1%nat (OpRelease (Some 1%positive)) :: replicate 3 (Run 1%nat 0%nat))
            ++ [Run 1%nat 0%nat; Run 1%nat 0%nat] ++ replicate 2 (Run 1%nat 0%nat)).
    rewrite mon_run_app, Hq1. cbv beta iota.
    rewrite mon_run_app. simpl. rewrite Hq2, Hq3. exact Hq4. }
  exists m4, m8. split; [done |]. split; [done |]. split; [done |].
  split; [by apply Hs4 |]. split; [done |]. split; [done |]. split; [done |].
  unfold settled. by rewrite Hf8, Hu8.
Defined.

(** C5 as it is written fails between the two writes: after the first
    write of [lock_acquire] the lock is still free and already has a user;
    after the first write of [lock_release] it has no user and is not yet
    free. *)
Lemma lock_fields_disagree_between_the_writes :
  (∃ m, run (boot None None None None)
            (Call 1%nat (OpAcquire (Some 1%positive)) :: replicate 5 (Run 1%nat 0%nat))
        = Some m
        ∧ reachable m
        ∧ lock_lock (m_lock m) = Some 1%nat
        ∧ free (m_lock m) = true
        ∧ curr_user (m_lock m) = Some 1%nat
        ∧ ¬ settled (m_lock m))
  ∧ (∃ m, run (boot None None None None)
              (takes 1%nat
               ++ Call 1%nat (OpRelease (Some 1%positive))
                  :: replicate 4 (Run 1%nat 0%nat))
          = Some m
          ∧ reachable m
          ∧ lock_lock (m_lock m) = Some 1%nat
          ∧ free (m_lock m) = false
          ∧ curr_user (m_lock m) = None
          ∧ ¬ settled (m_lock m)).
Proof.
  split.
  - destruct (run _ _) as [m|] eqn:E; [| vm_compute in E; discriminate E].
    exists m. split; [done |]. split; [reached E |].
    vm_compute in E. injection E as <-. simpl.
    do 3 (split; [done |]). intros [H _]. discriminate (H eq_refl).
  - destruct (run _ _) as [m|] eqn:E; [| vm_compute in E; discriminate E].
    exists m. split; [done |]. split; [reached E |].
    vm_compute in E. injection E as <-. simpl.
    do 3 (split; [done |]). intros [_ H]. discriminate (H eq_refl).
Qed.

End MonCalls.
